(** * Lentz evaluation of generalized continued fractions

    A shallow embedding of [scipy/stats/_continued_fraction.py]:
    the input validation [_continued_fraction_iv], the state
    initialisation of [_continued_fraction], and the three closures it
    hands to the elementwise iteration framework ([pre_func_eval],
    [post_func_eval], [check_termination]).

    Conventions of the embedding.
    - A float64 is a primitive binary64 float, so every arithmetic
      expression evaluates exactly as NumPy evaluates it.  Linear mode
      is modelled on float64 arrays.
    - A complex128 is a pair of floats.  Log mode is modelled on
      complex128 arrays, the dtype that carries the sign of a term in
      the phase of its logarithm.
    - The code ravels every array before the loop ([xp_ravel]); an array
      is a [list] and its shape is its length.
    - A work object is a record of parallel arrays, one slot per batch
      element still in progress; its arrays have one common length, and
      elementwise operations are [zip_with] and [fmap].
    - What the module calls but does not define (the iteration
      framework, [special.logsumexp], [np.log]) is either a parameter or
      a definition marked as modelled from the specification. *)

From Stdlib Require Import Floats ZArith Uint63.
From stdpp Require Import base option list strings gmap.

Set Warnings "-register-all,-clear-no-such-hyp".

Local Open Scope Z_scope.

(** ** Exceptions and the error monad *)

Inductive exn : Type :=
  | ValueError
  | TypeError
  | OverflowError.

Inductive result (A : Type) : Type :=
  | Ok (x : A)
  | Raise (e : exn).
Arguments Ok {A} x.
Arguments Raise {A} e.

#[global] Instance result_bind : MBind result :=
  λ A B (k : A → result B) (m : result A),
    match m with
    | Ok x => k x
    | Raise e => Raise e
    end.

#[global] Instance result_ret : MRet result := λ A (x : A), Ok x.

(** ** Status codes of the iteration framework

    The framework module that declares these constants is not part of
    the sources; the docstring of [_continued_fraction] documents the
    three exit codes. *)

(** Modelled from the spec: converged = 0. *)
Definition _ECONVERGED : Z := 0.
(** Modelled from the spec: max-iterations-reached = -2. *)
Definition _ECONVERR : Z := -2.
(** Modelled from the spec: value-error = -3. *)
Definition _EVALUEERR : Z := -3.
(** Modelled from the spec: the in-progress code, which differs from
    the three exit codes. *)
Definition _EINPROGRESS : Z := 1.

(** ** Arrays *)

(** [x[mask] = v]: masked assignment of a scalar. *)
Definition mask_set {A} (mask : list bool) (v : A) (x : list A) : list A :=
  zip_with (λ (m : bool) y, if m then v else y) mask x.

(** [xp.where(mask, v, x)] with a scalar [v]. *)
Definition xp_where {A} (mask : list bool) (v : A) (x : list A) : list A :=
  zip_with (λ (m : bool) y, if m then v else y) mask x.

(** [xp.full_like(x, v)]. *)
Definition full_like {A B} (x : list A) (v : B) : list B :=
  replicate (length x) v.

(** [x[mask]] for a boolean mask: the elements where the mask holds. *)
Fixpoint compress {A} (mask : list bool) (x : list A) : list A :=
  match mask, x with
  | m :: mask', y :: x' => if m then y :: compress mask' x' else compress mask' x'
  | _, _ => []
  end.

(** [dst[idx] = vals]: assignment through an integer index array. *)
Fixpoint scatter {A} (idx : list nat) (vals : list A) (dst : list A) : list A :=
  match idx, vals with
  | i :: idx', v :: vals' => scatter idx' vals' (<[i:=v]> dst)
  | _, _ => dst
  end.

(** [xp.any(mask)]. *)
Definition any (mask : list bool) : bool := existsb id mask.

(** [np.broadcast_shapes] on one-dimensional shapes. *)
Definition broadcast_shapes (s1 s2 : nat) : result nat :=
  if (s1 =? s2)%nat then Ok s1
  else if (s1 =? 1)%nat then Ok s2
  else if (s2 =? 1)%nat then Ok s1
  else Raise ValueError.

(** [xp_ravel(xp.broadcast_to(x, shape))] on one-dimensional shapes. *)
Definition broadcast_to {A} (x : list A) (shape : nat) : result (list A) :=
  if (length x =? shape)%nat then Ok x
  else match x with
       | [v] => Ok (replicate shape v)
       | _ => Raise ValueError
       end.

(** ** Element types and tolerances *)

Inductive dtype : Type := float32 | float64 | complex64 | complex128.

(** [xp.finfo(dtype).eps]. *)
Definition finfo_eps (d : dtype) : float :=
  match d with
  | float32 | complex64 => 0x1p-23%float
  | float64 | complex128 => 0x1p-52%float
  end.

Section Tolerances.

(** [np.log] on a float; NumPy's, hence a parameter. *)
Variable np_log : float → float.

(** [if eps is None: eps = xp.finfo(dtype).eps if not log
                         else np.log(xp.finfo(dtype).eps)] *)
Definition resolve_eps (d : dtype) (log : bool) (eps : option float) : float :=
  match eps with
  | Some e => e
  | None => if negb log then finfo_eps d else np_log (finfo_eps d)
  end.

(** [if tiny is None: tiny = xp.finfo(dtype).eps**2 if not log
                           else 2*np.log(xp.finfo(dtype).eps)] *)
Definition resolve_tiny (d : dtype) (log : bool) (tiny : option float) : float :=
  match tiny with
  | Some t => t
  | None => if negb log then (finfo_eps d * finfo_eps d)%float
            else (2 * np_log (finfo_eps d))%float
  end.

End Tolerances.

(** ** Array buffers

    The arrays of the initial state are separate buffers.  A heap maps a
    reference to the contents of its buffer; allocation returns a
    reference no earlier allocation returned. *)

Definition heap (T : Type) : Type := list (list T).

Definition alloc {T} (v : list T) (h : heap T) : nat * heap T :=
  (length h, h ++ [v]).

Definition load {T} (h : heap T) (r : nat) : list T := default [] (h !! r).


(** [xp_copy(x)]: a new buffer with the contents of [x]. *)
Definition xp_copy {T} (x : nat) (h : heap T) : nat * heap T := alloc (load h x) h.

Module Refs.
Record t : Type := mk { fn : nat; Cnm1 : nat; Dnm1 : nat; CnDn : nat }.
End Refs.

(** ** The work object

    [work = _RichResult(n=0, fn=fn, Cnm1=Cnm1, Dnm1=Dnm1, CnDn=CnDn,
    eps=eps, tiny=tiny, nit=nit, nfev=nfev, status=status)], to which
    the framework adds [args].  [T] is the element type of the arrays:
    [float] in linear mode, a pair of floats in log mode. *)

Module Work.
Record t (T : Type) : Type := mk {
  n : nat;
  fn : list T;
  Cnm1 : list T;
  Dnm1 : list T;
  CnDn : list T;
  eps : float;
  tiny : float;
  nit : nat;
  nfev : nat;
  status : list Z;
  args : list (list T);
}.
Arguments mk {T}.
Arguments n {T}. Arguments fn {T}. Arguments Cnm1 {T}. Arguments Dnm1 {T}.
Arguments CnDn {T}. Arguments eps {T}. Arguments tiny {T}. Arguments nit {T}.
Arguments nfev {T}. Arguments status {T}. Arguments args {T}.
End Work.
Abbreviation work := Work.t.

(** [pre_func_eval]: [work.n = work.n + 1; return work.n].  The
    one-element index array is represented by its element, which is what
    the wrapped callables extract from it. *)
Definition pre_func_eval {T} (w : work T) : work T * nat :=
  let n' := S (Work.n w) in
  (Work.mk n' (Work.fn w) (Work.Cnm1 w) (Work.Dnm1 w) (Work.CnDn w)
           (Work.eps w) (Work.tiny w) (Work.nit w) (Work.nfev w)
           (Work.status w) (Work.args w), n').

(** [func(n, *args) = xp.stack((a(n, *args), b(n, *args)), axis=-1)]. *)
Definition func {T} (a b : nat → list (list T) → list T)
    (k : nat) (xs : list (list T)) : list (T * T) :=
  zip (a k xs) (b k xs).

(** ** The iteration framework

    The framework functions [_initialize] and [_loop] that
    [_continued_fraction] calls are defined outside the module under
    study; the definitions of this section follow the description of the
    iteration driver. *)

Module Res.
Record t (T : Type) : Type := mk {
  success : list bool;
  status : list Z;
  f : list T;
  nit : list nat;
  nfev : list nat;
}.
Arguments mk {T}.
Arguments success {T}. Arguments status {T}. Arguments f {T}.
Arguments nit {T}. Arguments nfev {T}.
End Res.

(** Modelled from the spec: the term-0 evaluation of the framework's
    initialiser, which is not part of the sources.  It evaluates the
    callable once at term 0 and reports the values with their shape. *)
Definition _initialize {T} (f : nat → list (list T) → list T)
    (xs : list (list T)) : list T * nat :=
  let fs := f 0%nat xs in (fs, length fs).

Module Driver.
Section Loop.

Context {T : Type}.
Variable zero : T.
Variable func : nat → list (list T) → list (T * T).
Variable post_func_eval : nat → list (T * T) → work T → work T.
Variable check_termination : work T → work T * list bool.
Variable maxiter : nat.

(** The driver state: the work object (compacted to the elements still
    in progress), the result arrays (one slot per batch element) and the
    batch indices of the elements still in progress. *)
Definition state : Type := work T * Res.t T * list nat.

(** Modelled from the spec: the driver's bookkeeping, which is not part
    of the sources, accumulating the evaluation counter. *)
Definition incr_nfev (w : work T) : work T :=
  Work.mk (Work.n w) (Work.fn w) (Work.Cnm1 w) (Work.Dnm1 w) (Work.CnDn w)
          (Work.eps w) (Work.tiny w) (Work.nit w) (S (Work.nfev w))
          (Work.status w) (Work.args w).

(** Modelled from the spec: the driver's bookkeeping, which is not part
    of the sources, accumulating the iteration counter. *)
Definition incr_nit (w : work T) : work T :=
  Work.mk (Work.n w) (Work.fn w) (Work.Cnm1 w) (Work.Dnm1 w) (Work.CnDn w)
          (Work.eps w) (Work.tiny w) (S (Work.nit w)) (Work.nfev w)
          (Work.status w) (Work.args w).

(** Modelled from the spec: the driver, which is not part of the
    sources, compacts the work arrays to the elements still in progress
    (early exit of exhausted elements). *)
Definition compress_work (proceed : list bool) (w : work T) : work T :=
  Work.mk (Work.n w) (compress proceed (Work.fn w))
          (compress proceed (Work.Cnm1 w)) (compress proceed (Work.Dnm1 w))
          (compress proceed (Work.CnDn w)) (Work.eps w) (Work.tiny w)
          (Work.nit w) (Work.nfev w) (compress proceed (Work.status w))
          (compress proceed <$> Work.args w).

(** Modelled from the spec: the driver, which is not part of the
    sources, records [status], [f = fn], [nit] and [nfev] of the
    elements selected by [mask] in their slots of the result. *)
Definition _update_active (w : work T) (r : Res.t T) (active : list nat)
    (mask : list bool) : Res.t T :=
  let idx := compress mask active in
  let status := compress mask (Work.status w) in
  Res.mk (scatter idx ((λ s, Z.eqb s _ECONVERGED) <$> status) (Res.success r))
         (scatter idx status (Res.status r))
         (scatter idx (compress mask (Work.fn w)) (Res.f r))
         (scatter idx (replicate (length idx) (Work.nit w)) (Res.nit r))
         (scatter idx (replicate (length idx) (Work.nfev w)) (Res.nfev r)).

(** Modelled from the spec: the driver's termination pass, which is not
    part of the sources: run the termination oracle, record the elements
    that stop, and keep the others in progress. *)
Definition _check_termination (st : state) : state :=
  let '(w, r, active) := st in
  let '(w, stop) := check_termination w in
  if any stop then
    let r := _update_active w r active stop in
    let proceed := negb <$> stop in
    (compress_work proceed w, r, compress proceed active)
  else (w, r, active).

(** Modelled from the spec: the driver's loop condition, which is not
    part of the sources: some element is in progress and [nit] has not
    reached [maxiter]. *)
Definition continue (st : state) : bool :=
  let '(w, _, active) := st in
  (Work.nit w <? maxiter)%nat && negb (length active =? 0)%nat.

(** Modelled from the spec: one iteration of the driver, which is not
    part of the sources: advance the term index, evaluate the
    coefficient pairs, apply the step, check termination. *)
Definition body (st : state) : state :=
  let '(w, r, active) := st in
  let '(w, x) := pre_func_eval w in
  let f := func x (Work.args w) in
  let w := incr_nfev w in
  let w := post_func_eval x f w in
  let w := incr_nit w in
  _check_termination (w, r, active).

(** Modelled from the spec: the driver's loop, which is not part of the
    sources.  [fuel] bounds the number of iterations; [maxiter] is
    enough, since every iteration increments [nit]. *)
Fixpoint loop (fuel : nat) (st : state) : state :=
  match fuel with
  | O => st
  | S fuel' => if continue st then loop fuel' (body st) else st
  end.

(** Modelled from the spec: the final assembly of the result by the
    driver, which is not part of the sources: every element still in
    progress gets the status max-iterations-reached. *)
Definition _prepare_result (st : state) : Res.t T :=
  let '(w, r, active) := st in
  let w := Work.mk (Work.n w) (Work.fn w) (Work.Cnm1 w) (Work.Dnm1 w)
             (Work.CnDn w) (Work.eps w) (Work.tiny w) (Work.nit w)
             (Work.nfev w) (full_like (Work.status w) _ECONVERR)
             (Work.args w) in
  _update_active w r active (full_like active true).

(** Modelled from the spec: the initial driver state, which is not part
    of the sources: all elements in progress, counters [nit = 0] and
    [nfev = 1], and a first termination pass on the initial state. *)
Definition start (w : work T) (shape : nat) : state :=
  let n_elements := shape in
  let active := seq 0 n_elements in
  let r := Res.mk (replicate n_elements false)
                  (replicate n_elements _EINPROGRESS)
                  (replicate n_elements zero)
                  (replicate n_elements 0%nat)
                  (replicate n_elements 1%nat) in
  _check_termination (w, r, active).

(** Modelled from the spec: the iteration driver, which is not part of
    the sources. *)
Definition _loop (w : work T) (shape : nat) : Res.t T :=
  _prepare_result (loop maxiter (start w shape)).

End Loop.
End Driver.

(** ** Linear mode *)

Module Linear.

(** [post_func_eval] with [log = False]; [tiny] is the closure
    variable of the enclosing function. *)
Definition post_func_eval (tiny : float) (k : nat) (ab : list (float * float))
    (w : work float) : work float :=
  let an := ab.*1 in
  let bn := ab.*2 in
  let zero := 0%float in
  let denominator :=
    zip_with PrimFloat.add bn (zip_with PrimFloat.mul an (Work.Dnm1 w)) in
  let denominator :=
    mask_set ((λ d, PrimFloat.eqb d zero) <$> denominator) tiny denominator in
  let Dn := (λ d, PrimFloat.div 1 d) <$> denominator in
  let Cn :=
    zip_with PrimFloat.add bn (zip_with PrimFloat.div an (Work.Cnm1 w)) in
  let Cn := mask_set ((λ c, PrimFloat.eqb c zero) <$> Cn) tiny Cn in
  let CnDn := zip_with PrimFloat.mul Cn Dn in
  let fn := zip_with PrimFloat.mul (Work.fn w) CnDn in
  Work.mk (Work.n w) fn Cn Dn CnDn (Work.eps w) (Work.tiny w)
          (Work.nit w) (Work.nfev w) (Work.status w) (Work.args w).

(** The index array [i = residual < work.eps] with
    [residual = xp.abs(work.CnDn - 1)]. *)
Definition converged (w : work float) : list bool :=
  let residual := (λ c, PrimFloat.abs (c - 1)%float) <$> Work.CnDn w in
  (λ r, PrimFloat.ltb r (Work.eps w)) <$> residual.

(** The index array [i = ~xp.isfinite(work.fn)]. *)
Definition not_finite (w : work float) : list bool :=
  (λ f, negb (PrimFloat.is_finite f)) <$> Work.fn w.

(** [check_termination] with [log = False]: returns the work object
    with its [status] array updated in place, and [stop]. *)
Definition check_termination (w : work float) : work float * list bool :=
  let stop := full_like (Work.CnDn w) false in
  let i := converged w in
  let status := mask_set i _ECONVERGED (Work.status w) in
  let stop := mask_set i true stop in
  let i := not_finite w in
  let status := mask_set i _EVALUEERR status in
  let stop := mask_set i true stop in
  (Work.mk (Work.n w) (Work.fn w) (Work.Cnm1 w) (Work.Dnm1 w) (Work.CnDn w)
           (Work.eps w) (Work.tiny w) (Work.nit w) (Work.nfev w) status
           (Work.args w), stop).

(** The initial arrays: ["Set f0 and C0 to the value b0 or to tiny if
    b0=0. Set D0 = 0."] *)
Definition init_state (tiny : float) (bn : list float) (h : heap float)
    : Refs.t * heap float :=
  let zero := 0%float in
  let '(fn, h) :=
    alloc (xp_where ((λ x, PrimFloat.eqb x zero) <$> bn) tiny bn) h in
  let '(Cnm1, h) := xp_copy fn h in
  let '(Dnm1, h) := alloc (full_like (load h fn) zero) h in
  let '(CnDn, h) := alloc (full_like (load h fn) infinity) h in
  (Refs.mk fn Cnm1 Dnm1 CnDn, h).

Section WithLog.

Variable np_log : float → float.

(** The initialisation part of [_continued_fraction] with
    [log = False]: the work object and the shape of the result. *)
Definition setup (a b : nat → list (list float) → list float)
    (args : list (list float)) (eps tiny : option float)
    : result (work float * nat) :=
  let '(fs_a, shape_a) := _initialize a args in
  let '(fs_b, shape_b) := _initialize b args in
  shape ← broadcast_shapes shape_a shape_b;
  let dtype := float64 in
  an ← broadcast_to fs_a shape;
  bn ← broadcast_to fs_b shape;
  args ← mapM (λ arg, broadcast_to arg shape) args;
  let status := full_like an _EINPROGRESS in
  let nit := 0%nat in
  let nfev := 1%nat in
  let eps := resolve_eps np_log dtype false eps in
  let tiny := resolve_tiny np_log dtype false tiny in
  let '(refs, h) := init_state tiny bn [] in
  Ok (Work.mk 0 (load h (Refs.fn refs)) (load h (Refs.Cnm1 refs))
              (load h (Refs.Dnm1 refs)) (load h (Refs.CnDn refs))
              eps tiny nit nfev status args, shape).

(** [_continued_fraction] with [log = False], on validated inputs:
    the callables are array functions, [eps] and [tiny] are floats or
    absent, and [maxiter] is the iteration cap (the default of line 312
    for [None] is not reached, since validation refuses [None]).
    [customize_result], which only restores the dtype and the scalar
    shape of [f], is the identity here. *)
Definition _continued_fraction (a b : nat → list (list float) → list float)
    (args : list (list float)) (eps tiny : option float) (maxiter : nat)
    : result (Res.t float) :=
  '(w, shape) ← setup a b args eps tiny;
  Ok (Driver._loop 0%float (func a b) (post_func_eval (Work.tiny w))
        check_termination maxiter w shape).

End WithLog.

End Linear.

(** ** Log mode

    In log mode the arrays hold complex logarithms, the phase carrying
    the sign.  [logsumexp2 x y] stands for [special.logsumexp] applied
    to the two-row stack of [x] and [y] along axis 0, at one element; it
    is defined outside the module under study and is a parameter. *)

Definition complex : Type := float * float.

Definition re (z : complex) : float := z.1.
Definition im (z : complex) : float := z.2.
Definition of_real (x : float) : complex := (x, 0%float).

Definition cadd (x y : complex) : complex :=
  ((re x + re y)%float, (im x + im y)%float).
Definition csub (x y : complex) : complex :=
  ((re x - re y)%float, (im x - im y)%float).
Definition cneg (x : complex) : complex := ((- re x)%float, (- im x)%float).
Definition ceqb (x y : complex) : bool :=
  PrimFloat.eqb (re x) (re y) && PrimFloat.eqb (im x) (im y).
Definition cis_finite (x : complex) : bool :=
  PrimFloat.is_finite (re x) && PrimFloat.is_finite (im x).

(** [xp.pi], the float64 nearest to pi, and [xp.pi*1j]. *)
Definition pi : float := 0x1.921fb54442d18p+1%float.
Definition pi_j : complex := (0%float, pi).

Module LogMode.
Section WithLogsumexp.

Variable logsumexp2 : complex → complex → complex.

(** [_logaddexp(x, y)]: stack the two arrays and reduce along axis 0. *)
Definition _logaddexp (x y : list complex) : list complex :=
  zip_with logsumexp2 x y.

(** [post_func_eval] with [log = True]. *)
Definition post_func_eval (tiny : float) (k : nat) (ab : list (complex * complex))
    (w : work complex) : work complex :=
  let an := ab.*1 in
  let bn := ab.*2 in
  let zero := of_real neg_infinity in
  let denominator := _logaddexp bn (zip_with cadd an (Work.Dnm1 w)) in
  let denominator :=
    mask_set ((λ d, ceqb d zero) <$> denominator) (of_real tiny) denominator in
  let Dn := cneg <$> denominator in
  let Cn := _logaddexp bn (zip_with csub an (Work.Cnm1 w)) in
  let Cn := mask_set ((λ c, ceqb c zero) <$> Cn) (of_real tiny) Cn in
  let CnDn := zip_with cadd Cn Dn in
  let fn := zip_with cadd (Work.fn w) CnDn in
  Work.mk (Work.n w) fn Cn Dn CnDn (Work.eps w) (Work.tiny w)
          (Work.nit w) (Work.nfev w) (Work.status w) (Work.args w).

(** The index array [i = residual < work.eps] with
    [residual = xp.real(_logaddexp(work.CnDn, pij))]. *)
Definition converged (w : work complex) : list bool :=
  let pij := full_like (Work.CnDn w) pi_j in
  let residual := re <$> _logaddexp (Work.CnDn w) pij in
  (λ r, PrimFloat.ltb r (Work.eps w)) <$> residual.

(** The index array
    [i = ~(xp.isfinite(work.fn) | (work.fn == -xp.inf))]. *)
Definition not_finite (w : work complex) : list bool :=
  (λ f, negb (cis_finite f || ceqb f (of_real neg_infinity))) <$> Work.fn w.

(** [check_termination] with [log = True]. *)
Definition check_termination (w : work complex) : work complex * list bool :=
  let stop := full_like (Work.CnDn w) false in
  let i := converged w in
  let status := mask_set i _ECONVERGED (Work.status w) in
  let stop := mask_set i true stop in
  let i := not_finite w in
  let status := mask_set i _EVALUEERR status in
  let stop := mask_set i true stop in
  (Work.mk (Work.n w) (Work.fn w) (Work.Cnm1 w) (Work.Dnm1 w) (Work.CnDn w)
           (Work.eps w) (Work.tiny w) (Work.nit w) (Work.nfev w) status
           (Work.args w), stop).

(** The initial arrays in log mode: the log-domain zero is [-inf]. *)
Definition init_state (tiny : float) (bn : list complex) (h : heap complex)
    : Refs.t * heap complex :=
  let zero := of_real neg_infinity in
  let '(fn, h) :=
    alloc (xp_where ((λ x, ceqb x zero) <$> bn) (of_real tiny) bn) h in
  let '(Cnm1, h) := xp_copy fn h in
  let '(Dnm1, h) := alloc (full_like (load h fn) zero) h in
  let '(CnDn, h) := alloc (full_like (load h fn) (of_real infinity)) h in
  (Refs.mk fn Cnm1 Dnm1 CnDn, h).

Variable np_log : float → float.

(** The initialisation part of [_continued_fraction] with
    [log = True]. *)
Definition setup (a b : nat → list (list complex) → list complex)
    (args : list (list complex)) (eps tiny : option float)
    : result (work complex * nat) :=
  let '(fs_a, shape_a) := _initialize a args in
  let '(fs_b, shape_b) := _initialize b args in
  shape ← broadcast_shapes shape_a shape_b;
  let dtype := complex128 in
  an ← broadcast_to fs_a shape;
  bn ← broadcast_to fs_b shape;
  args ← mapM (λ arg, broadcast_to arg shape) args;
  let status := full_like an _EINPROGRESS in
  let nit := 0%nat in
  let nfev := 1%nat in
  let eps := resolve_eps np_log dtype true eps in
  let tiny := resolve_tiny np_log dtype true tiny in
  let '(refs, h) := init_state tiny bn [] in
  Ok (Work.mk 0 (load h (Refs.fn refs)) (load h (Refs.Cnm1 refs))
              (load h (Refs.Dnm1 refs)) (load h (Refs.CnDn refs))
              eps tiny nit nfev status args, shape).

(** [_continued_fraction] with [log = True], on validated inputs. *)
Definition _continued_fraction (a b : nat → list (list complex) → list complex)
    (args : list (list complex)) (eps tiny : option float) (maxiter : nat)
    : result (Res.t complex) :=
  '(w, shape) ← setup a b args eps tiny;
  Ok (Driver._loop (of_real 0%float) (func a b) (post_func_eval (Work.tiny w))
        check_termination maxiter w shape).

End WithLogsumexp.
End LogMode.

(** ** Input validation

    The arguments of the public entry point are Python objects.  The
    objects that occur as callables, [args] and [log] are values of
    [pyval]; a tolerance is an int (within the int64 range), a float, a
    complex number or a sequence of floats; [maxiter] is [None], an int
    or a float. *)

Inductive pyval : Type :=
  | PyNone
  | PyBool (b : bool)
  | PyInt (z : Z)
  | PyFloat (x : float)
  | PyTuple (xs : list pyval)
  | PyArray (shape : list nat) (data : list float)
  | PyFunction (name : string).

Inductive tolval : Type :=
  | TolInt (z : Z)
  | TolFloat (x : float)
  | TolComplex (re im : float)
  | TolSeq (xs : list float).

Inductive iterval : Type :=
  | MNone
  | MInt (z : Z)
  | MFloat (x : float).

(** [callable(x)]. *)
Definition callable (x : pyval) : bool :=
  match x with
  | PyFunction _ => true
  | _ => false
  end.

(** [np.iterable(x)]: whether [iter(x)] succeeds.  An array of zero
    dimensions cannot be iterated over; any other array can. *)
Definition np_iterable (x : pyval) : bool :=
  match x with
  | PyTuple _ => true
  | PyArray shape _ => negb (bool_decide (shape = []))
  | _ => false
  end.

(** [bool(x)], as evaluated by [not log].  The truth value of an array
    with other than one element is an error. *)
Definition truthy (x : pyval) : result bool :=
  match x with
  | PyNone => Ok false
  | PyBool b => Ok b
  | PyInt z => Ok (negb (z =? 0))
  | PyFloat x => Ok (negb (PrimFloat.eqb x 0))
  | PyTuple xs => Ok (negb (bool_decide (xs = [])))
  | PyArray _ [x] => Ok (negb (PrimFloat.eqb x 0))
  | PyArray _ _ => Raise ValueError
  | PyFunction _ => Ok true
  end.

(** [isinstance(x, bool)]. *)
Definition isinstance_bool (x : pyval) : bool :=
  match x with
  | PyBool _ => true
  | _ => false
  end.

(** The array [tols]: its dtype is the promotion of the element types;
    the elements are kept as given, since the conversion to the common
    dtype preserves their sign and their finiteness. *)
Inductive kind : Type := KInt | KFloat | KComplex.

Record ndarray : Type := mkArr {
  arr_dtype : kind;
  arr_shape : list nat;
  arr_data : list tolval;
}.

Definition kind_of (x : tolval) : kind :=
  match x with
  | TolInt _ => KInt
  | TolComplex _ _ => KComplex
  | _ => KFloat
  end.

Definition promote (k1 k2 : kind) : kind :=
  match k1, k2 with
  | KComplex, _ | _, KComplex => KComplex
  | KFloat, _ | _, KFloat => KFloat
  | KInt, KInt => KInt
  end.

(** [np.asarray([x, y])].  Rows of different shapes make NumPy (1.24
    and later) raise a [ValueError]: the requested array is
    inhomogeneous. *)
Definition np_asarray2 (x y : tolval) : result ndarray :=
  match x, y with
  | TolSeq xs, TolSeq ys =>
      if (length xs =? length ys)%nat
      then Ok (mkArr KFloat [2%nat; length xs] (TolFloat <$> (xs ++ ys)))
      else Raise ValueError
  | TolSeq _, _ | _, TolSeq _ => Raise ValueError
  | _, _ => Ok (mkArr (promote (kind_of x) (kind_of y)) [2%nat] [x; y])
  end.

(** One element of [tols <= 0]; complex numbers compare
    lexicographically. *)
Definition le0 (x : tolval) : bool :=
  match x with
  | TolInt z => z <=? 0
  | TolFloat x => PrimFloat.leb x 0
  | TolComplex r i =>
      PrimFloat.ltb r 0 || (PrimFloat.eqb r 0 && PrimFloat.leb i 0)
  | TolSeq _ => false
  end.

(** One element of [np.isfinite(tols)]. *)
Definition isfinite (x : tolval) : bool :=
  match x with
  | TolInt _ => true
  | TolFloat x => PrimFloat.is_finite x
  | TolComplex r i => PrimFloat.is_finite r && PrimFloat.is_finite i
  | TolSeq _ => false
  end.

(** The value [m * 2^e] of a finite float, truncated towards zero, and
    whether it is an integer. *)
Definition float_trunc (x : float) : Z :=
  match Prim2SF x with
  | S754_finite s m e =>
      let v := if 0 <=? e then Z.pos m * 2 ^ e else Z.pos m / 2 ^ (- e) in
      if s then - v else v
  | _ => 0
  end.

Definition float_is_integer (x : float) : bool :=
  match Prim2SF x with
  | S754_zero _ => true
  | S754_finite _ m e => (0 <=? e) || (Z.pos m mod 2 ^ (- e) =? 0)
  | _ => false
  end.

(** [int(maxiter)]. *)
Definition py_int (x : iterval) : result Z :=
  match x with
  | MNone => Raise TypeError
  | MInt z => Ok z
  | MFloat x =>
      if PrimFloat.is_nan x then Raise ValueError
      else if PrimFloat.is_infinity x then Raise OverflowError
      else Ok (float_trunc x)
  end.

(** [maxiter != maxiter_int]; Python compares a float and an int by
    their exact values. *)
Definition py_ne (x : iterval) (k : Z) : bool :=
  match x with
  | MNone => true
  | MInt z => negb (z =? k)
  | MFloat x => negb (float_is_integer x && (float_trunc x =? k))
  end.

(** [maxiter < 0]. *)
Definition py_lt0 (x : iterval) : bool :=
  match x with
  | MNone => false
  | MInt z => z <? 0
  | MFloat x => PrimFloat.ltb x 0
  end.

Definition validated : Type :=
  pyval * pyval * pyval * option tolval * option tolval * iterval * pyval.

(** [_continued_fraction_iv(a, b, args, tolerances, maxiter, log)]. *)
Definition _continued_fraction_iv (a b args : pyval)
    (tolerances : option (gmap string tolval)) (maxiter : iterval)
    (log : pyval) : result validated :=
  if negb (callable a) || negb (callable b) then Raise ValueError else
  let args := if negb (np_iterable args) then PyTuple [args] else args in
  let tolerances := default ∅ tolerances in
  let eps := tolerances !! "eps" in
  let tiny := tolerances !! "tiny" in
  tols ← np_asarray2 (default (TolInt 1) eps) (default (TolInt 1) tiny);
  let not_real :=
    match arr_dtype tols with KComplex => true | _ => false end in
  is_log ← truthy log;
  let not_log := negb is_log in
  let not_positive :=
    if not_log then existsb le0 (arr_data tols) else false in
  let not_finite := negb (forallb isfinite (arr_data tols)) in
  let not_scalar := negb (bool_decide (arr_shape tols = [2%nat])) in
  if not_real || not_positive || not_finite || not_scalar
  then Raise ValueError else
  maxiter_int ← py_int maxiter;
  if py_ne maxiter maxiter_int || py_lt0 maxiter then Raise ValueError else
  if negb (isinstance_bool log) then Raise ValueError else
  Ok (a, b, args, eps, tiny, maxiter, log).

(** ** Invariants of the driver state *)

(** The evaluation counter is one more than the iteration counter, in
    the work object and in every slot of the result, and no recorded
    iteration count exceeds the current one. *)
Definition counters_ok {T} (st : @Driver.state T) : Prop :=
  let '(w, r, _) := st in
  Work.nfev w = S (Work.nit w) ∧
  Res.nfev r = S <$> Res.nit r ∧
  Forall (λ k, (k ≤ Work.nit w)%nat) (Res.nit r).

(** No iteration counter of [st] exceeds the corresponding one of
    [st']. *)
Definition nit_le {T} (st st' : @Driver.state T) : Prop :=
  let '(w, r, _) := st in
  let '(w', r', _) := st' in
  (Work.nit w ≤ Work.nit w')%nat ∧
  length (Res.nit r) = length (Res.nit r') ∧
  ∀ (i k k' : nat),
    Res.nit r !! i = Some k → Res.nit r' !! i = Some k' → (k ≤ k')%nat.

(** ** One element of a batch

    The instance at batch index [i], evaluated alone: each argument
    array is reduced to the one-element array of its entry [i]. *)

Definition pick {T} (i : nat) (xs : list (list T)) : list (list T) :=
  (λ x, option_list (x !! i)) <$> xs.

(** A coefficient callable of [arity] array arguments is elementwise
    when, on argument arrays of a common length [L] (a single element
    when there are no arguments), it returns [L] values, and the value
    at index [i] is the one it returns for the instance [i] evaluated
    alone. *)
Definition elementwise {T} (arity : nat) (f : nat → list (list T) → list T)
    : Prop :=
  ∀ (k : nat) (xs : list (list T)) (L : nat),
    length xs = arity →
    Forall (λ x, length x = L) xs → (arity = 0%nat → L = 1%nat) →
    length (f k xs) = L ∧
    ∀ i, (i < L)%nat → f k xs !! i = f k (pick i xs) !! 0%nat.

(** The recurrence state of one element: [fn], [Cnm1], [Dnm1], [CnDn]. *)
Definition elem (T : Type) : Type := T * T * T * T.

Definition elem_fn {T} (e : elem T) : T := e.1.1.1.

Definition elem_at {T} (w : work T) (j : nat) : option (elem T) :=
  f ← Work.fn w !! j;
  C ← Work.Cnm1 w !! j;
  D ← Work.Dnm1 w !! j;
  CD ← Work.CnDn w !! j;
  Some (f, C, D, CD).

(** The arrays of the work object that hold one slot per element in
    progress all have length [L]. *)
Definition work_len {T} (L : nat) (w : work T) : Prop :=
  length (Work.fn w) = L ∧ length (Work.Cnm1 w) = L ∧
  length (Work.Dnm1 w) = L ∧ length (Work.CnDn w) = L ∧
  length (Work.status w) = L ∧ Forall (λ x, length x = L) (Work.args w).

(** What has become of an element after some iterations: it is still in
    progress with a recurrence state, or it stopped with a status, a
    convergent and an iteration count. *)
Inductive outcome (T : Type) : Type :=
  | Running (e : elem T)
  | Done (s : Z) (f : T) (k : nat).
Arguments Running {T} e.
Arguments Done {T} s f k.

Section Element.

Context {T : Type}.
(** One Lentz step, the convergence test and the finiteness test on one
    element. *)
Variable pstep : T * T → elem T → elem T.
Variable conv : elem T → bool.
Variable nf : elem T → bool.
(** The coefficient pairs and the initial state of the element. *)
Variable coef : nat → T * T.
Variable e0 : elem T.

(** The termination check on one element after [k] iterations. *)
Definition settle (k : nat) (e : elem T) : outcome T :=
  if nf e then Done _EVALUEERR (elem_fn e) k
  else if conv e then Done _ECONVERGED (elem_fn e) k
  else Running e.

(** The element after [k] iterations (or fewer, if it stopped before). *)
Fixpoint traj (k : nat) : outcome T :=
  match k with
  | O => settle 0 e0
  | S k' =>
      match traj k' with
      | Running e => settle (S k') (pstep (coef (S k')) e)
      | d => d
      end
  end.

(** The status, convergent and iteration count reported for an element
    when the loop ends after [maxiter] iterations at most. *)
Definition final (maxiter : nat) : Z * T * nat :=
  match traj maxiter with
  | Done s f k => (s, f, k)
  | Running e => (_ECONVERR, elem_fn e, maxiter)
  end.

End Element.

(** The position in [x] of the element at position [j] of
    [compress mask x]. *)
Fixpoint sel (mask : list bool) (j : nat) : option nat :=
  match mask with
  | [] => None
  | true :: mask' =>
      match j with
      | O => Some 0%nat
      | S j' => S <$> sel mask' j'
      end
  | false :: mask' => S <$> sel mask' j
  end.

(** The coefficient pair of term [k] for the instance at batch index
    [i], evaluated alone. *)
Definition coef_of {T} (zero : T) (a b : nat → list (list T) → list T)
    (args0 : list (list T)) (i k : nat) : T * T :=
  (hd zero (a k (pick i args0)), hd zero (b k (pick i args0))).

(** ** The batch and its elements

    The invariant that ties the driver state after [k] iterations to the
    per-element semantics.  With [pre = true] it describes the state on
    which the termination pass is about to run, with [pre = false] the
    state it leaves. *)

Section BatchInvariant.

Context {T : Type}.
Variable pstep : T * T → elem T → elem T.
Variable conv : elem T → bool.
Variable nf : elem T → bool.
Variable coef : nat → nat → T * T.
Variable e0 : nat → elem T.
Variable eps0 : float.
Variable N : nat.
Variable args0 : list (list T).

(** Slot [j] of the work object holds the element at batch index [i]. *)
Definition slot_ok (pre : bool) (k : nat) (w : work T) (j i : nat) : Prop :=
  ∃ e, traj pstep conv nf (coef i) (e0 i) k
       = (if pre then settle conv nf k e else Running e) ∧
       elem_at w j = Some e ∧
       Work.status w !! j = Some _EINPROGRESS ∧
       pick j (Work.args w) = pick i args0.

(** The element at batch index [i] has stopped and is recorded. *)
Definition recorded (k : nat) (r : Res.t T) (i : nat) : Prop :=
  ∃ s f m, traj pstep conv nf (coef i) (e0 i) k = Done s f m ∧
           Res.status r !! i = Some s ∧
           Res.f r !! i = Some f ∧
           Res.nit r !! i = Some m.

Definition batch_inv (pre : bool) (k : nat) (st : @Driver.state T) : Prop :=
  let '(w, r, active) := st in
  Work.nit w = k ∧ Work.n w = k ∧ Work.eps w = eps0 ∧
  NoDup active ∧ (∀ i, i ∈ active → (i < N)%nat) ∧
  work_len (length active) w ∧
  (∀ j i, active !! j = Some i → slot_ok pre k w j i) ∧
  (length (Res.status r) = N ∧ length (Res.f r) = N ∧
   length (Res.nit r) = N) ∧
  (∀ i, (i < N)%nat → i ∉ active → recorded k r i).

End BatchInvariant.

(** ** The callbacks on one element *)

(** One Lentz step in linear mode on one element. *)
Definition linear_step (tiny : float) (x : float * float) (e : elem float)
    : elem float :=
  let '(an, bn) := x in
  let '(f, Cp, Dp, _) := e in
  let denom0 := (bn + an * Dp)%float in
  let denom := if (denom0 =? 0)%float then tiny else denom0 in
  let Dn := (1 / denom)%float in
  let Cn0 := (bn + an / Cp)%float in
  let Cn := if (Cn0 =? 0)%float then tiny else Cn0 in
  let CnDn := (Cn * Dn)%float in
  ((f * CnDn)%float, Cn, Dn, CnDn).

Definition linear_conv (eps : float) (e : elem float) : bool :=
  PrimFloat.ltb (PrimFloat.abs (e.2 - 1)%float) eps.

Definition linear_nf (e : elem float) : bool :=
  negb (PrimFloat.is_finite (elem_fn e)).

(** The initial state of the element at batch index [i]. *)
Definition linear_e0 (tiny : float) (b : nat → list (list float) → list float)
    (args0 : list (list float)) (i : nat) : elem float :=
  let b0 := hd 0%float (b 0%nat (pick i args0)) in
  let f := if (b0 =? 0)%float then tiny else b0 in
  (f, f, 0%float, infinity).

(** One Lentz step in log mode on one element. *)
Definition log_step (logsumexp2 : complex → complex → complex) (tiny : float)
    (x : complex * complex) (e : elem complex) : elem complex :=
  let '(an, bn) := x in
  let '(f, Cp, Dp, _) := e in
  let denom0 := logsumexp2 bn (cadd an Dp) in
  let denom :=
    if ceqb denom0 (of_real neg_infinity) then of_real tiny else denom0 in
  let Dn := cneg denom in
  let Cn0 := logsumexp2 bn (csub an Cp) in
  let Cn := if ceqb Cn0 (of_real neg_infinity) then of_real tiny else Cn0 in
  let CnDn := cadd Cn Dn in
  (cadd f CnDn, Cn, Dn, CnDn).

Definition log_conv (logsumexp2 : complex → complex → complex) (eps : float)
    (e : elem complex) : bool :=
  PrimFloat.ltb (re (logsumexp2 e.2 pi_j)) eps.

Definition log_nf (e : elem complex) : bool :=
  negb (cis_finite (elem_fn e) || ceqb (elem_fn e) (of_real neg_infinity)).

Definition log_e0 (tiny : float) (b : nat → list (list complex) → list complex)
    (args0 : list (list complex)) (i : nat) : elem complex :=
  let b0 := hd (of_real 0%float) (b 0%nat (pick i args0)) in
  let f := if ceqb b0 (of_real neg_infinity) then of_real tiny else b0 in
  (f, f, of_real neg_infinity, of_real infinity).

(** ** Malformed configurations *)








(** ** The examples of the docstring *)

Definition float_of_nat (k : nat) : float :=
  PrimFloat.of_uint63 (Uint63.of_Z (Z.of_nat k)).

(** [b = [3, 7, 15, 1, 292, 1, 1, 1, 2, 1, 3, 1]], [a(n) = 1]. *)
Definition pi_simple_b (k : nat) (_ : list (list float)) : list float :=
  [nth k [3; 7; 15; 1; 292; 1; 1; 1; 2; 1; 3; 1]%float 1%float].
Definition pi_simple_a (k : nat) (_ : list (list float)) : list float :=
  [1%float].

(** [a(n) = (2*n - 1)**2], [b(0) = 3], [b(n) = 6]. *)
Definition pi_slow_a (k : nat) (_ : list (list float)) : list float :=
  let x := (2 * float_of_nat k - 1)%float in [(x * x)%float].
Definition pi_slow_b (k : nat) (_ : list (list float)) : list float :=
  [match k with O => 3%float | _ => 6%float end].

(** The two continued fractions of Machin's formula, evaluated in one
    call with [args = ([16, 4], [5, 239])]. *)
Definition machin_a (k : nat) (xs : list (list float)) : list float :=
  match xs with
  | a1 :: _ =>
      match k with
      | 0%nat => (λ _, 0%float) <$> a1
      | 1%nat => a1
      | _ => (λ _, let x := float_of_nat (k - 1) in (x * x)%float) <$> a1
      end
  | [] => []
  end.
Definition machin_b (k : nat) (xs : list (list float)) : list float :=
  match xs with
  | _ :: uv :: _ =>
      match k with
      | 0%nat => (λ _, 0%float) <$> uv
      | _ => (λ u, ((2 * float_of_nat k - 1) * u)%float) <$> uv
      end
  | _ => []
  end.

(** The continued fraction with all coefficients 1, in log mode:
    [a(n) = b(n) = log(1) = 0 + 0j]. *)
Definition log_unit_a (k : nat) (_ : list (list complex)) : list complex :=
  [(0, 0)%float].
Definition log_unit_b (k : nat) (_ : list (list complex)) : list complex :=
  [(0, 0)%float].

(** Numerators that differ from the ones above at term 0 only. *)
Definition pi_slow_a' (k : nat) (xs : list (list float)) : list float :=
  match k with
  | O => [42%float]
  | _ => pi_slow_a k xs
  end.
Definition log_unit_a' (k : nat) (xs : list (list complex)) : list complex :=
  match k with
  | O => [(1, pi)%float]
  | _ => log_unit_a k xs
  end.

(** A batch in log mode: the numerators are the logarithms given as the
    one argument array, the denominators are [log(1)]. *)
Definition log_batch_a (k : nat) (xs : list (list complex)) : list complex :=
  match xs with
  | [x] => x
  | _ => []
  end.
Definition log_batch_b (k : nat) (xs : list (list complex)) : list complex :=
  match xs with
  | [x] => (λ _, (0, 0)%float) <$> x
  | _ => []
  end.

(** ** A sample point of the log-sum-exp primitive *)

(** [log(eps)] and [2*log(eps)] for float64, as [np.log] returns them. *)
Definition log_eps64 : float := (-0x1.205966f2b4f12p+5)%float.

(** Modelled from the spec: the log-sum-exp primitive, which is not part
    of the sources, at two stacks.  At [(0, pi*1j)]: in float64,
    [exp(0) + exp(pi*1j) = 1.2246e-16j], whose logarithm is
    [-36.6387 + 1.5708j].  At [(+inf, pi*1j)]: the sum of the
    exponentials is [+inf], and so is its logarithm.  Other stacks are
    not tabulated. *)
Definition logsumexp2_sample (x y : complex) : complex :=
  if ceqb x (0, 0)%float && ceqb y pi_j
  then ((-0x1.251c137889f6dp+5)%float, 0x1.921fb54442d18p+0%float)
  else if ceqb x (of_real infinity) && ceqb y pi_j
  then of_real infinity
  else (nan, nan).

(** * Properties *)

Lemma lookup_mask_set {A} (mask : list bool) (v : A) (x : list A)
    (i : nat) (m : bool) (y : A) :
  mask !! i = Some m → x !! i = Some y →
  mask_set mask v x !! i = Some (if m then v else y).
Proof.
  intros Hm Hx. unfold mask_set. rewrite lookup_zip_with, Hm, Hx. done.
Qed.

Lemma length_mask_set {A} (mask : list bool) (v : A) (x : list A) :
  length mask = length x → length (mask_set mask v x) = length x.
Proof. intros H. unfold mask_set. rewrite length_zip_with. lia. Qed.

(** Two elements after term 1: [3 + 1/7], and a vanishing denominator
    ([b1 = 0], [D0 = 0]) replaced by [tiny = 2^-104]. *)
Example post_func_eval_ex :
  Work.fn (Linear.post_func_eval 0x1p-104%float 1 [(1, 7); (1, 0)]%float
     (Work.mk 0 [3; 2]%float [3; 2]%float [0; 0]%float
        [infinity; infinity] 0x1p-52%float 0x1p-104%float 0 1 [1; 1] []))
  = [0x1.9249249249248p+1; 0x1p+104]%float.
Proof. vm_compute. reflexivity. Qed.

(** C1.  In linear mode one Lentz step computes, for the element in slot
    [i] of the active batch: [denom = bn + an*Dnm1], replaced by [tiny]
    when it equals 0; [Dn = 1/denom]; [Cn = bn + an/Cnm1], replaced by
    [tiny] when it equals 0; [CnDn = Cn*Dn]; [fn] multiplied by [CnDn];
    and [Cnm1], [Dnm1] overwritten with [Cn], [Dn]. *)
Theorem lentz_step_linear (tiny : float) (k i : nat) (ab : list (float * float))
    (w : work float) (an bn Cp Dp f : float) :
  ab !! i = Some (an, bn) →
  Work.Cnm1 w !! i = Some Cp →
  Work.Dnm1 w !! i = Some Dp →
  Work.fn w !! i = Some f →
  let denom0 := (bn + an * Dp)%float in
  let denom := if (denom0 =? 0)%float then tiny else denom0 in
  let Dn := (1 / denom)%float in
  let Cn0 := (bn + an / Cp)%float in
  let Cn := if (Cn0 =? 0)%float then tiny else Cn0 in
  let CnDn := (Cn * Dn)%float in
  let w' := Linear.post_func_eval tiny k ab w in
  Work.CnDn w' !! i = Some CnDn ∧
  Work.fn w' !! i = Some (f * CnDn)%float ∧
  Work.Cnm1 w' !! i = Some Cn ∧
  Work.Dnm1 w' !! i = Some Dn.
Proof.
  intros Hab HC HD Hf. cbv zeta.
  assert (Han : ab.*1 !! i = Some an) by (by rewrite list_lookup_fmap, Hab).
  assert (Hbn : ab.*2 !! i = Some bn) by (by rewrite list_lookup_fmap, Hab).
  set (denom0 := (bn + an * Dp)%float).
  set (Cn0 := (bn + an / Cp)%float).
  assert (Hd0 : zip_with PrimFloat.add ab.*2
                  (zip_with PrimFloat.mul ab.*1 (Work.Dnm1 w)) !! i
                = Some denom0).
  { by rewrite !lookup_zip_with, Hbn, Han, HD. }
  assert (Hc0 : zip_with PrimFloat.add ab.*2
                  (zip_with PrimFloat.div ab.*1 (Work.Cnm1 w)) !! i
                = Some Cn0).
  { by rewrite !lookup_zip_with, Hbn, Han, HC. }
  assert (HCn : Work.Cnm1 (Linear.post_func_eval tiny k ab w) !! i
                = Some (if (Cn0 =? 0)%float then tiny else Cn0)).
  { cbn. erewrite lookup_mask_set; [done | | exact Hc0].
    by rewrite list_lookup_fmap, Hc0. }
  assert (HDn : Work.Dnm1 (Linear.post_func_eval tiny k ab w) !! i
                = Some (1 / (if (denom0 =? 0)%float then tiny else denom0))%float).
  { cbn. rewrite list_lookup_fmap.
    erewrite lookup_mask_set; [done | | exact Hd0].
    by rewrite list_lookup_fmap, Hd0. }
  assert (HCD : Work.CnDn (Linear.post_func_eval tiny k ab w) !! i
                = Some ((if (Cn0 =? 0)%float then tiny else Cn0)
                        * (1 / (if (denom0 =? 0)%float then tiny else denom0)))%float).
  { cbn. cbn in HCn, HDn. by rewrite lookup_zip_with, HCn, HDn. }
  repeat split; try done.
  cbn. cbn in HCD. by rewrite lookup_zip_with, Hf, HCD.
Qed.

(** The step at [b = 7], [a = 1] from the state [fn = C = 3], [D = 0]. *)
Lemma lentz_step_linear_witness :
  let w := Work.mk 0 [3]%float [3]%float [0]%float [infinity]
             0x1p-52%float 0x1p-104%float 0 1 [1] [] in
  let w' := Linear.post_func_eval 0x1p-104%float 1 [(1, 7)]%float w in
  Work.CnDn w' !! 0%nat = Some (0x1.d555555555555p+2 * (1 / 7))%float ∧
  Work.fn w' !! 0%nat = Some (3 * (0x1.d555555555555p+2 * (1 / 7)))%float ∧
  Work.Cnm1 w' !! 0%nat = Some 0x1.d555555555555p+2%float ∧
  Work.Dnm1 w' !! 0%nat = Some (1 / 7)%float.
Proof.
  exact (lentz_step_linear 0x1p-104%float 1 0 [(1, 7)]%float
           (Work.mk 0 [3]%float [3]%float [0]%float [infinity]
              0x1p-52%float 0x1p-104%float 0 1 [1] [])
           1 7 3 0 3 eq_refl eq_refl eq_refl eq_refl).
Defined.

Example docstring_pi_slow :
  Linear._continued_fraction id pi_slow_a pi_slow_b [] None None 100
  = Ok (Res.mk [false] [-2] [0x1.921fb33b3e448p+1%float] [100%nat] [101%nat]).
Proof. vm_compute. reflexivity. Qed.

Example docstring_machin :
  (λ r, (Res.success r, Res.status r, Res.nit r, Res.nfev r)) <$>
    (match Linear._continued_fraction id machin_a machin_b
             [[16; 4]; [5; 239]]%float None None 100 with
     | Ok r => Some r | Raise _ => None end)
  = Some ([true; true], [0; 0], [10; 4]%nat, [11; 5]%nat).
Proof. vm_compute. reflexivity. Qed.

(** The first example of the docstring: after the 11 terms the
    convergent has the relative error [7.067899292141148e-15] that the
    docstring shows. *)
Example docstring_pi_simple :
  (λ r, (Res.nit r, (λ f, ((f - pi) / pi)%float) <$> Res.f r)) <$>
    (match Linear._continued_fraction id pi_simple_a pi_simple_b [] None None
             11 with
     | Ok r => Some r | Raise _ => None end)
  = Some ([11%nat], [0x1.fd4bbab8b494cp-48%float]).
Proof. vm_compute. reflexivity. Qed.

(** The third example of the docstring: the difference of the two
    convergents has the relative error [2.8271597168564594e-16] that the
    docstring shows. *)
Example docstring_machin_pi :
  (λ r, match Res.f r with
        | [u; v] => Some (((u - v) - pi) / pi)%float
        | _ => None
        end) <$>
    (match Linear._continued_fraction id machin_a machin_b
             [[16; 4]; [5; 239]]%float None None 100 with
     | Ok r => Some r | Raise _ => None end)
  = Some (Some 0x1.45f306dc9c883p-52%float).
Proof. vm_compute. reflexivity. Qed.

(** Validation of [maxiter]: a negative integer and a float with a
    fractional part are refused, a float equal to an integer passes. *)
Example maxiter_examples :
  _continued_fraction_iv (PyFunction "a") (PyFunction "b") (PyTuple []) None
    (MInt (-1)) (PyBool false) = Raise ValueError ∧
  _continued_fraction_iv (PyFunction "a") (PyFunction "b") (PyTuple []) None
    (MFloat 2.5) (PyBool false) = Raise ValueError ∧
  _continued_fraction_iv (PyFunction "a") (PyFunction "b") (PyTuple []) None
    (MFloat 11) (PyBool false)
  = Ok (PyFunction "a", PyFunction "b", PyTuple [], None, None, MFloat 11,
        PyBool false).
Proof. repeat split. Qed.

(** ** The termination oracle *)

Lemma lookup_full_like {A B} (x : list A) (v : B) (i : nat) (y : A) :
  x !! i = Some y → full_like x v !! i = Some v.
Proof.
  intros H. unfold full_like. apply lookup_replicate_2.
  by eapply lookup_lt_Some.
Qed.

Lemma linear_converged_lookup (w : work float) (i : nat) (c : float) :
  Work.CnDn w !! i = Some c →
  Linear.converged w !! i
  = Some (PrimFloat.ltb (PrimFloat.abs (c - 1)%float) (Work.eps w)).
Proof.
  intros H. unfold Linear.converged. by rewrite !list_lookup_fmap, H.
Qed.

Lemma log_converged_lookup lse (w : work complex) (i : nat) (z : complex) :
  Work.CnDn w !! i = Some z →
  LogMode.converged lse w !! i
  = Some (PrimFloat.ltb (re (lse z pi_j)) (Work.eps w)).
Proof.
  intros H. unfold LogMode.converged, LogMode._logaddexp.
  rewrite !list_lookup_fmap, lookup_zip_with, H. cbn.
  by erewrite lookup_full_like.
Qed.

(** Both assignments of the oracle at one slot: the later one, for a
    non-finite [fn], overrides the earlier one. *)
Lemma check_slot (conv nf : list bool) (st : list Z) (x : list bool)
    (i : nat) (c n : bool) (s : Z) (b : bool) :
  conv !! i = Some c → nf !! i = Some n → st !! i = Some s → x !! i = Some b →
  mask_set nf _EVALUEERR (mask_set conv _ECONVERGED st) !! i
  = Some (if n then _EVALUEERR else if c then _ECONVERGED else s) ∧
  mask_set nf true (mask_set conv true x) !! i
  = Some (if n then true else if c then true else b).
Proof.
  intros Hc Hn Hs Hx. split.
  - erewrite lookup_mask_set; [done | done |].
    by erewrite lookup_mask_set.
  - erewrite lookup_mask_set; [done | done |].
    by erewrite lookup_mask_set.
Qed.

Lemma linear_check_lookup (w : work float) (i : nat) (c f : float) (s : Z) :
  Work.CnDn w !! i = Some c → Work.fn w !! i = Some f →
  Work.status w !! i = Some s →
  let conv := PrimFloat.ltb (PrimFloat.abs (c - 1)%float) (Work.eps w) in
  let nf := negb (PrimFloat.is_finite f) in
  Work.status (Linear.check_termination w).1 !! i
  = Some (if nf then _EVALUEERR else if conv then _ECONVERGED else s) ∧
  (Linear.check_termination w).2 !! i
  = Some (if nf then true else if conv then true else false).
Proof.
  intros Hc Hf Hs. cbn.
  apply check_slot; try done.
  - by apply linear_converged_lookup.
  - unfold Linear.not_finite. by rewrite list_lookup_fmap, Hf.
  - by eapply lookup_full_like.
Qed.

Lemma log_check_lookup lse (w : work complex) (i : nat) (z f : complex) (s : Z) :
  Work.CnDn w !! i = Some z → Work.fn w !! i = Some f →
  Work.status w !! i = Some s →
  let conv := PrimFloat.ltb (re (lse z pi_j)) (Work.eps w) in
  let nf := negb (cis_finite f || ceqb f (of_real neg_infinity)) in
  Work.status (LogMode.check_termination lse w).1 !! i
  = Some (if nf then _EVALUEERR else if conv then _ECONVERGED else s) ∧
  (LogMode.check_termination lse w).2 !! i
  = Some (if nf then true else if conv then true else false).
Proof.
  intros Hc Hf Hs. cbn.
  apply check_slot; try done.
  - by apply log_converged_lookup.
  - unfold LogMode.not_finite. by rewrite list_lookup_fmap, Hf.
  - by eapply lookup_full_like.
Qed.




(** C3, as the code has it.  In one termination check the value-error
    assignment comes last and wins: an element is left with value-error
    status exactly when its [fn] is non-finite (linear mode) or
    non-finite and not [-inf] (log mode), whether or not it satisfied the
    convergence test; an element with an acceptable [fn] that satisfies
    the convergence test is left converged; any other element keeps its
    status.  The element stops in the first two cases only. *)
Theorem check_termination_status
    (logsumexp2 : complex → complex → complex)
    (wl : work float) (wg : work complex) (i : nat)
    (c fl : float) (z fg : complex) (sl sg : Z) :
  Work.CnDn wl !! i = Some c → Work.fn wl !! i = Some fl →
  Work.status wl !! i = Some sl →
  Work.CnDn wg !! i = Some z → Work.fn wg !! i = Some fg →
  Work.status wg !! i = Some sg →
  let convl := PrimFloat.ltb (PrimFloat.abs (c - 1)%float) (Work.eps wl) in
  let nfl := negb (PrimFloat.is_finite fl) in
  let convg := PrimFloat.ltb (re (logsumexp2 z pi_j)) (Work.eps wg) in
  let nfg := negb (cis_finite fg || ceqb fg (of_real neg_infinity)) in
  (Work.status (Linear.check_termination wl).1 !! i
   = Some (if nfl then _EVALUEERR else if convl then _ECONVERGED else sl) ∧
   (Linear.check_termination wl).2 !! i = Some (convl || nfl)) ∧
  (Work.status (LogMode.check_termination logsumexp2 wg).1 !! i
   = Some (if nfg then _EVALUEERR else if convg then _ECONVERGED else sg) ∧
   (LogMode.check_termination logsumexp2 wg).2 !! i = Some (convg || nfg)).
Proof.
  intros Hc Hf Hs Hz Hfg Hsg convl nfl convg nfg.
  destruct (linear_check_lookup wl i c fl sl Hc Hf Hs) as [H1 H2].
  destruct (log_check_lookup logsumexp2 wg i z fg sg Hz Hfg Hsg) as [H3 H4].
  cbv zeta in H1, H2, H3, H4. fold convl nfl in H1, H2. fold convg nfg in H3, H4.
  rewrite H1, H2, H3, H4.
  repeat split; f_equal.
  - by destruct nfl, convl.
  - by destruct nfg, convg.
Qed.

Lemma check_termination_status_witness :
  let wl := Work.mk 1 [infinity] [2]%float [1]%float [2]%float 2%float
              0x1p-104%float 1 2 [1] [] in
  let wg := Work.mk 1 [(1, 0)]%float [(2, 0)]%float [(0, 0)]%float
              [(0, 0)]%float log_eps64 (2 * log_eps64)%float 1 2 [1] [] in
  (Work.status (Linear.check_termination wl).1 !! 0%nat = Some _EVALUEERR ∧
   (Linear.check_termination wl).2 !! 0%nat = Some true) ∧
  (Work.status (LogMode.check_termination logsumexp2_sample wg).1 !! 0%nat
   = Some _ECONVERGED ∧
   (LogMode.check_termination logsumexp2_sample wg).2 !! 0%nat = Some true).
Proof.
  exact (check_termination_status logsumexp2_sample
           (Work.mk 1 [infinity] [2]%float [1]%float [2]%float 2%float
              0x1p-104%float 1 2 [1] [])
           (Work.mk 1 [(1, 0)]%float [(2, 0)]%float [(0, 0)]%float
              [(0, 0)]%float log_eps64 (2 * log_eps64)%float 1 2 [1] [])
           0%nat 2%float infinity (0, 0)%float (1, 0)%float 1 1
           eq_refl eq_refl eq_refl eq_refl eq_refl eq_refl).
Defined.

(** C3 as stated fails: with [b0 = a1 = 2^1023], [b1 = 1] and
    [eps = 2], the first Lentz step gives [CnDn = 2], whose residual 1
    passes the convergence test, and [fn = 2^1024] overflows; the check
    leaves the element with value-error status. *)
Lemma converged_overridden_counterexample :
  let w0 := Work.mk 0 [0x1p+1023]%float [0x1p+1023]%float [0]%float
              [infinity] 2%float 0x1p-104%float 0 1 [_EINPROGRESS] [] in
  let w1 := Linear.post_func_eval 0x1p-104%float 1
              [(0x1p+1023, 1)]%float w0 in
  Linear.converged w1 !! 0%nat = Some true ∧
  Work.status (Linear.check_termination w1).1 !! 0%nat = Some _EVALUEERR.
Proof. vm_compute. split; reflexivity. Qed.

(** ** The initial state *)

Lemma load_alloc_new {T} (h : heap T) (v : list T) :
  load (alloc v h).2 (alloc v h).1 = v.
Proof.
  unfold load, alloc, heap in *. simpl.
  rewrite (lookup_app_r h [v] (length h)) by lia. by rewrite Nat.sub_diag.
Qed.


Lemma lookup_xp_where {A} (mask : list bool) (v : A) (x : list A)
    (i : nat) (m : bool) (y : A) :
  mask !! i = Some m → x !! i = Some y →
  xp_where mask v x !! i = Some (if m then v else y).
Proof.
  intros Hm Hx. unfold xp_where. by rewrite lookup_zip_with, Hm, Hx.
Qed.

(** A float that is not below [+inf] (that is, [+inf] or NaN) is below
    no float at all. *)
Lemma ltb_infinity_false (r e : float) :
  PrimFloat.ltb r infinity = false → PrimFloat.ltb r e = false.
Proof.
  rewrite !FloatAxioms.ltb_spec.
  replace (Prim2SF infinity) with (S754_infinity false) by reflexivity.
  destruct (Prim2SF r) as [[]|[]| |[] m x], (Prim2SF e) as [[]|[]| |[] m' x'];
    cbn; try done.
Qed.

Lemma linear_sentinel (e : float) :
  PrimFloat.ltb (PrimFloat.abs (infinity - 1)%float) e = false.
Proof. by apply ltb_infinity_false. Qed.

Lemma load_app_at {T} (h : heap T) (l : list (list T)) (k : nat) :
  load (h ++ l) (length h + k) = default [] (l !! k).
Proof.
  unfold load, heap in *.
  rewrite (lookup_app_r h l (length h + k)) by lia.
  by replace (length h + k - length h)%nat with k by lia.
Qed.

Lemma load_app_head {T} (h : heap T) (v : list T) (l : list (list T)) :
  load (h ++ v :: l) (length h) = v.
Proof.
  replace (length h) with (length h + 0)%nat at 1 by lia.
  by rewrite load_app_at.
Qed.

Lemma linear_init_state_eq (tiny : float) (bn : list float) (h : heap float) :
  let fn0 := xp_where ((λ x, PrimFloat.eqb x 0%float) <$> bn) tiny bn in
  Linear.init_state tiny bn h
  = (Refs.mk (length h + 0) (length h + 1) (length h + 2) (length h + 3),
     h ++ [fn0; fn0; full_like fn0 0%float; full_like fn0 infinity]).
Proof.
  intros fn0. unfold Linear.init_state, xp_copy.
  fold fn0.
  rewrite (surjective_pairing (alloc fn0 h)).
  rewrite (load_alloc_new h fn0).
  unfold alloc; cbn [fst snd].
  rewrite !length_app; cbn [length].
  rewrite <-!app_assoc; cbn [app].
  rewrite !load_app_head.
  do 2 f_equal; lia.
Qed.

Lemma log_init_state_eq (tiny : float) (bn : list complex) (h : heap complex) :
  let fn0 :=
    xp_where ((λ x, ceqb x (of_real neg_infinity)) <$> bn) (of_real tiny) bn in
  LogMode.init_state tiny bn h
  = (Refs.mk (length h + 0) (length h + 1) (length h + 2) (length h + 3),
     h ++ [fn0; fn0; full_like fn0 (of_real neg_infinity);
           full_like fn0 (of_real infinity)]).
Proof.
  intros fn0. unfold LogMode.init_state, xp_copy.
  fold fn0.
  rewrite (surjective_pairing (alloc fn0 h)).
  rewrite (load_alloc_new h fn0).
  unfold alloc; cbn [fst snd].
  rewrite !length_app; cbn [length].
  rewrite <-!app_assoc; cbn [app].
  rewrite !load_app_head.
  do 2 f_equal; lia.
Qed.



(** ** The set-up of the work object *)

Lemma bind_Ok {A B} (m : result A) (k : A → result B) (y : B) :
  m ≫= k = Ok y → ∃ x, m = Ok x ∧ k x = Ok y.
Proof. destruct m as [x|e]; [by exists x | done]. Qed.

Lemma linear_setup_inv np_log a b args eps tiny (w : work float) (shape : nat) :
  Linear.setup np_log a b args eps tiny = Ok (w, shape) →
  ∃ an bn args',
    broadcast_shapes (length (a 0%nat args)) (length (b 0%nat args)) = Ok shape ∧
    broadcast_to (a 0%nat args) shape = Ok an ∧
    broadcast_to (b 0%nat args) shape = Ok bn ∧
    mapM (λ arg, broadcast_to arg shape) args = Ok args' ∧
    let t := resolve_tiny np_log float64 false tiny in
    let fn0 := xp_where ((λ x, PrimFloat.eqb x 0%float) <$> bn) t bn in
    w = Work.mk 0 fn0 fn0 (full_like fn0 0%float) (full_like fn0 infinity)
          (resolve_eps np_log float64 false eps) t 0 1
          (full_like an _EINPROGRESS) args'.
Proof.
  unfold Linear.setup, _initialize. intros H.
  apply bind_Ok in H as (s & Hs & H).
  apply bind_Ok in H as (an & Han & H).
  apply bind_Ok in H as (bn & Hbn & H).
  apply bind_Ok in H as (args' & Hargs & H).
  rewrite linear_init_state_eq in H. cbn [length app] in H.
  change (0 + ?k)%nat with k in H.
  unfold load in H. cbn [lookup list_lookup default Refs.fn Refs.Cnm1
    Refs.Dnm1 Refs.CnDn] in H.
  injection H as <- <-.
  by exists an, bn, args'.
Qed.

Lemma log_setup_inv np_log a b args eps tiny (w : work complex)
    (shape : nat) :
  LogMode.setup np_log a b args eps tiny = Ok (w, shape) →
  ∃ an bn args',
    broadcast_shapes (length (a 0%nat args)) (length (b 0%nat args)) = Ok shape ∧
    broadcast_to (a 0%nat args) shape = Ok an ∧
    broadcast_to (b 0%nat args) shape = Ok bn ∧
    mapM (λ arg, broadcast_to arg shape) args = Ok args' ∧
    let t := resolve_tiny np_log complex128 true tiny in
    let fn0 := xp_where ((λ x, ceqb x (of_real neg_infinity)) <$> bn)
                 (of_real t) bn in
    w = Work.mk 0 fn0 fn0 (full_like fn0 (of_real neg_infinity))
          (full_like fn0 (of_real infinity))
          (resolve_eps np_log complex128 true eps) t 0 1
          (full_like an _EINPROGRESS) args'.
Proof.
  unfold LogMode.setup, _initialize. intros H.
  apply bind_Ok in H as (s & Hs & H).
  apply bind_Ok in H as (an & Han & H).
  apply bind_Ok in H as (bn & Hbn & H).
  apply bind_Ok in H as (args' & Hargs & H).
  rewrite log_init_state_eq in H. cbn [length app] in H.
  change (0 + ?k)%nat with k in H.
  unfold load in H. cbn [lookup list_lookup default Refs.fn Refs.Cnm1
    Refs.Dnm1 Refs.CnDn] in H.
  injection H as <- <-.
  by exists an, bn, args'.
Qed.



(** ** The counters of the driver *)

Lemma scatter_replicate_S (idx : list nat) (m k : nat) (l : list nat) :
  scatter idx (replicate m (S k)) (S <$> l)
  = S <$> scatter idx (replicate m k) l.
Proof.
  revert m l. induction idx as [|i idx IH]; intros [|m] l; cbn; try done.
  rewrite <-list_fmap_insert. apply IH.
Qed.

Lemma scatter_Forall {A} (P : A → Prop) (idx : list nat) (vals dst : list A) :
  Forall P vals → Forall P dst → Forall P (scatter idx vals dst).
Proof.
  revert vals dst. induction idx as [|i idx IH]; intros [|v vals] dst Hv Hd;
    cbn; try done.
  apply Forall_cons in Hv as [Hv Hvs].
  apply IH; [done|]. by apply Forall_insert.
Qed.

Lemma scatter_replicate_lookup (idx : list nat) (m v : nat) (dst : list nat)
    (i k : nat) :
  scatter idx (replicate m v) dst !! i = Some k → k = v ∨ dst !! i = Some k.
Proof.
  revert m dst. induction idx as [|j idx IH]; intros [|m] dst; cbn; auto.
  intros H. apply IH in H as [->|H]; [by left|].
  destruct (decide (j = i)) as [->|Hne].
  - destruct (decide (i < length dst)%nat) as [Hlt|Hge].
    + rewrite list_lookup_insert_eq in H by done. left. congruence.
    + rewrite list_insert_ge in H by lia. by right.
  - rewrite list_lookup_insert_ne in H by done. by right.
Qed.

Lemma length_scatter {A} (idx : list nat) (vals dst : list A) :
  length (scatter idx vals dst) = length dst.
Proof.
  revert vals dst. induction idx as [|i idx IH]; intros [|v vals] dst;
    cbn; try done.
  by rewrite IH, length_insert.
Qed.

Section Counters.

Context {T : Type}.
Variable zero : T.
Variable func : nat → list (list T) → list (T * T).
Variable post_func_eval : nat → list (T * T) → work T → work T.
Variable check_termination : work T → work T * list bool.
Variable maxiter : nat.

Hypothesis post_counters : ∀ k ab w,
  Work.nit (post_func_eval k ab w) = Work.nit w ∧
  Work.nfev (post_func_eval k ab w) = Work.nfev w.
Hypothesis check_counters : ∀ w,
  Work.nit (check_termination w).1 = Work.nit w ∧
  Work.nfev (check_termination w).1 = Work.nfev w.

Lemma update_active_counters (w : work T) r active mask :
  counters_ok (w, r, active) →
  counters_ok (w, Driver._update_active w r active mask, active) ∧
  nit_le (w, r, active) (w, Driver._update_active w r active mask, active).
Proof.
  intros (Hw & Hr & Hle). split.
  - split; [done|]. cbn. split.
    + rewrite Hw, Hr. apply scatter_replicate_S.
    + apply scatter_Forall; [|done]. by apply Forall_replicate.
  - split; [done|]. cbn. split; [by rewrite length_scatter|].
    intros i k k' Hk Hk'.
    apply scatter_replicate_lookup in Hk' as [->|Hk'].
    + by eapply Forall_lookup_1 in Hle.
    + rewrite Hk in Hk'. injection Hk' as ->. done.
Qed.

Lemma check_termination_counters (st : @Driver.state T) :
  counters_ok st →
  counters_ok (Driver._check_termination check_termination st) ∧
  nit_le st (Driver._check_termination check_termination st) ∧
  Work.nit (Driver._check_termination check_termination st).1.1
  = Work.nit st.1.1.
Proof.
  destruct st as [[w r] active]. intros (Hw & Hr & Hle).
  unfold Driver._check_termination.
  destruct (check_counters w) as [Hn Hf].
  destruct (check_termination w) as [w' stop]. cbn in Hn, Hf.
  assert (Hok : counters_ok (w', r, active)).
  { split; [by rewrite Hn, Hf|]. split; [done|]. by rewrite Hn. }
  destruct (any stop).
  - destruct (update_active_counters w' r active stop Hok) as [H1 H2].
    split; [exact H1|]. split; [|done].
    destruct H2 as [_ H2]. split; [cbn; lia|exact H2].
  - split; [done|]. split; [|done]. split; [lia|]. split; [done|].
    intros i k k' Hk Hk'. rewrite Hk in Hk'. injection Hk' as ->. done.
Qed.

Lemma body_counters (st : @Driver.state T) :
  counters_ok st →
  counters_ok (Driver.body func post_func_eval check_termination st) ∧
  nit_le st (Driver.body func post_func_eval check_termination st) ∧
  Work.nit (Driver.body func post_func_eval check_termination st).1.1
  = S (Work.nit st.1.1).
Proof.
  destruct st as [[w r] active]. intros (Hw & Hr & Hle).
  unfold Driver.body, pre_func_eval.
  set (w1 := Driver.incr_nit _).
  assert (Hn1 : Work.nit w1 = S (Work.nit w)).
  { unfold w1. cbn. by destruct (post_counters (S (Work.n w))
      (func (S (Work.n w)) (Work.args w)) (Driver.incr_nfev
        (Work.mk (S (Work.n w)) (Work.fn w) (Work.Cnm1 w) (Work.Dnm1 w)
           (Work.CnDn w) (Work.eps w) (Work.tiny w) (Work.nit w)
           (Work.nfev w) (Work.status w) (Work.args w)))) as [-> _]. }
  assert (Hf1 : Work.nfev w1 = S (Work.nfev w)).
  { unfold w1. cbn. by destruct (post_counters (S (Work.n w))
      (func (S (Work.n w)) (Work.args w)) (Driver.incr_nfev
        (Work.mk (S (Work.n w)) (Work.fn w) (Work.Cnm1 w) (Work.Dnm1 w)
           (Work.CnDn w) (Work.eps w) (Work.tiny w) (Work.nit w)
           (Work.nfev w) (Work.status w) (Work.args w)))) as [_ ->]. }
  assert (Hok : counters_ok (w1, r, active)).
  { split; [by rewrite Hn1, Hf1, Hw|]. split; [done|].
    rewrite Hn1. eapply Forall_impl; [exact Hle|]. cbn. lia. }
  destruct (check_termination_counters (w1, r, active) Hok) as (H1 & H2 & H3).
  split; [exact H1|]. split.
  - destruct (Driver._check_termination check_termination (w1, r, active))
      as [[w2 r2] a2]. cbn [fst snd] in H3. destruct H2 as [_ H2].
    split; [lia|exact H2].
  - by rewrite H3.
Qed.

Lemma nit_le_refl (st : @Driver.state T) : nit_le st st.
Proof.
  destruct st as [[w r] a]. split; [done|]. split; [done|].
  intros i k k' Hk Hk'. rewrite Hk in Hk'. injection Hk' as ->. done.
Qed.

Lemma nit_le_trans (st1 st2 st3 : @Driver.state T) :
  nit_le st1 st2 → nit_le st2 st3 → nit_le st1 st3.
Proof.
  destruct st1 as [[w1 r1] a1], st2 as [[w2 r2] a2], st3 as [[w3 r3] a3].
  cbn. intros (H1 & Hl1 & H1') (H2 & Hl2 & H2'). split; [lia|].
  split; [congruence|].
  intros i k k' Hk Hk'.
  destruct (Res.nit r2 !! i) as [k2|] eqn:Hk2.
  - specialize (H1' i k k2 Hk Hk2). specialize (H2' i k2 k' Hk2 Hk'). lia.
  - apply lookup_ge_None in Hk2. apply lookup_lt_Some in Hk. lia.
Qed.

Lemma loop_counters (fuel : nat) (st : @Driver.state T) :
  counters_ok st →
  counters_ok
    (Driver.loop func post_func_eval check_termination maxiter fuel st) ∧
  nit_le st
    (Driver.loop func post_func_eval check_termination maxiter fuel st).
Proof.
  revert st. induction fuel as [|fuel IH]; intros st Hok; cbn.
  - split; [done|apply nit_le_refl].
  - destruct (Driver.continue maxiter st).
    + destruct (body_counters st Hok) as (H1 & H2 & _).
      destruct (IH _ H1) as [H3 H4].
      split; [done|]. by eapply nit_le_trans.
    + split; [done|apply nit_le_refl].
Qed.

Lemma loop_stop (fuel : nat) (st : @Driver.state T) :
  Driver.continue maxiter st = false →
  Driver.loop func post_func_eval check_termination maxiter fuel st = st.
Proof. intros H. destruct fuel; cbn; [done|]. by rewrite H. Qed.

Lemma loop_add (m d : nat) (st : @Driver.state T) :
  Driver.loop func post_func_eval check_termination maxiter (m + d) st
  = Driver.loop func post_func_eval check_termination maxiter d
      (Driver.loop func post_func_eval check_termination maxiter m st).
Proof.
  revert st. induction m as [|m IH]; intros st; cbn; [done|].
  destruct (Driver.continue maxiter st) eqn:Hc; [apply IH|].
  by rewrite loop_stop.
Qed.

Lemma start_counters (w : work T) (shape : nat) :
  Work.nit w = 0%nat → Work.nfev w = 1%nat →
  counters_ok (Driver.start zero check_termination w shape).
Proof.
  intros Hn Hf. unfold Driver.start.
  apply check_termination_counters. split; [by rewrite Hn, Hf|]. cbn.
  split; [by rewrite fmap_replicate|].
  apply Forall_replicate. lia.
Qed.

Lemma prepare_result_counters (st : @Driver.state T) :
  counters_ok st →
  Res.nfev (Driver._prepare_result st) = S <$> Res.nit (Driver._prepare_result st).
Proof.
  destruct st as [[w r] active]. intros (Hw & Hr & Hle).
  unfold Driver._prepare_result. cbn.
  rewrite Hw, Hr. apply scatter_replicate_S.
Qed.

(** Every state of a run satisfies the counter invariant; later states
    have larger or equal iteration counters; and so does the result. *)
Lemma run_counters (w : work T) (shape : nat) :
  Work.nit w = 0%nat → Work.nfev w = 1%nat →
  let run m := Driver.loop func post_func_eval check_termination maxiter m
                 (Driver.start zero check_termination w shape) in
  (∀ m, counters_ok (run m)) ∧
  (∀ m d, nit_le (run m) (run (m + d)%nat)) ∧
  Res.nfev (Driver._loop zero func post_func_eval check_termination maxiter
              w shape)
  = S <$> Res.nit (Driver._loop zero func post_func_eval check_termination
                     maxiter w shape).
Proof.
  intros Hn Hf run.
  pose proof (start_counters w shape Hn Hf) as H0.
  assert (Hrun : ∀ m, counters_ok (run m)).
  { intros m. by apply loop_counters. }
  split; [done|]. split.
  - intros m d. unfold run. rewrite loop_add.
    apply loop_counters. apply Hrun.
  - unfold Driver._loop. apply prepare_result_counters. apply Hrun.
Qed.

End Counters.

(** C6.  At every point of a run after the initialisation, the
    evaluation counter equals the iteration counter plus one, in the work
    object and in every slot of the result record, and so it does in the
    returned result; no iteration counter ever decreases. *)
Theorem counters_invariant
    (np_log : float → float) (logsumexp2 : complex → complex → complex)
    (al bl : nat → list (list float) → list float)
    (ag bg : nat → list (list complex) → list complex)
    (argsl : list (list float)) (argsg : list (list complex))
    (epsl tinyl epsg tinyg : option float) (maxiter : nat)
    (wl : work float) (wg : work complex) (sl sg : nat) :
  Linear.setup np_log al bl argsl epsl tinyl = Ok (wl, sl) →
  LogMode.setup np_log ag bg argsg epsg tinyg = Ok (wg, sg) →
  let runl m :=
    Driver.loop (func al bl) (Linear.post_func_eval (Work.tiny wl))
      Linear.check_termination maxiter m
      (Driver.start 0%float Linear.check_termination wl sl) in
  let rung m :=
    Driver.loop (func ag bg)
      (LogMode.post_func_eval logsumexp2 (Work.tiny wg))
      (LogMode.check_termination logsumexp2) maxiter m
      (Driver.start (of_real 0%float) (LogMode.check_termination logsumexp2)
         wg sg) in
  ((∀ m, counters_ok (runl m)) ∧
   (∀ m d, nit_le (runl m) (runl (m + d)%nat)) ∧
   ∃ r, Linear._continued_fraction np_log al bl argsl epsl tinyl maxiter = Ok r ∧
        Res.nfev r = S <$> Res.nit r) ∧
  ((∀ m, counters_ok (rung m)) ∧
   (∀ m d, nit_le (rung m) (rung (m + d)%nat)) ∧
   ∃ r, LogMode._continued_fraction logsumexp2 np_log ag bg argsg epsg tinyg
          maxiter = Ok r ∧
        Res.nfev r = S <$> Res.nit r).
Proof.
  intros Hl Hg runl rung.
  assert (Hnl : Work.nit wl = 0%nat ∧ Work.nfev wl = 1%nat).
  { apply linear_setup_inv in Hl as (? & ? & ? & _ & _ & _ & _ & ->). done. }
  assert (Hng : Work.nit wg = 0%nat ∧ Work.nfev wg = 1%nat).
  { apply log_setup_inv in Hg as (? & ? & ? & _ & _ & _ & _ & ->). done. }
  split.
  - destruct (run_counters 0%float (func al bl)
                (Linear.post_func_eval (Work.tiny wl))
                Linear.check_termination maxiter
                (λ _ _ _, conj eq_refl eq_refl) (λ _, conj eq_refl eq_refl)
                wl sl (proj1 Hnl) (proj2 Hnl)) as (H1 & H2 & H3).
    split; [exact H1|]. split; [exact H2|].
    eexists. split; [|exact H3].
    unfold Linear._continued_fraction. by rewrite Hl.
  - destruct (run_counters (of_real 0%float) (func ag bg)
                (LogMode.post_func_eval logsumexp2 (Work.tiny wg))
                (LogMode.check_termination logsumexp2) maxiter
                (λ _ _ _, conj eq_refl eq_refl) (λ _, conj eq_refl eq_refl)
                wg sg (proj1 Hng) (proj2 Hng)) as (H1 & H2 & H3).
    split; [exact H1|]. split; [exact H2|].
    eexists. split; [|exact H3].
    unfold LogMode._continued_fraction. by rewrite Hg.
Qed.

Lemma counters_invariant_witness :
  let wl := Work.mk 0 [3]%float [3]%float [0]%float [infinity]
              0x1p-52%float 0x1p-104%float 0 1 [_EINPROGRESS] [] in
  let wg := Work.mk 0 [(0, 0)]%float [(0, 0)]%float [of_real neg_infinity]
              [of_real infinity] log_eps64 (2 * log_eps64)%float 0 1
              [_EINPROGRESS] [] in
  let runl m :=
    Driver.loop (func pi_slow_a pi_slow_b)
      (Linear.post_func_eval (Work.tiny wl))
      Linear.check_termination 100 m
      (Driver.start 0%float Linear.check_termination wl 1) in
  let rung m :=
    Driver.loop (func log_unit_a log_unit_b)
      (LogMode.post_func_eval logsumexp2_sample (Work.tiny wg))
      (LogMode.check_termination logsumexp2_sample) 100 m
      (Driver.start (of_real 0%float)
         (LogMode.check_termination logsumexp2_sample) wg 1) in
  ((∀ m, counters_ok (runl m)) ∧
   (∀ m d, nit_le (runl m) (runl (m + d)%nat)) ∧
   ∃ r, Linear._continued_fraction (λ _, log_eps64) pi_slow_a pi_slow_b []
          None None 100 = Ok r ∧
        Res.nfev r = S <$> Res.nit r) ∧
  ((∀ m, counters_ok (rung m)) ∧
   (∀ m d, nit_le (rung m) (rung (m + d)%nat)) ∧
   ∃ r, LogMode._continued_fraction logsumexp2_sample (λ _, log_eps64)
          log_unit_a log_unit_b [] None None 100 = Ok r ∧
        Res.nfev r = S <$> Res.nit r).
Proof.
  exact (counters_invariant (λ _, log_eps64) logsumexp2_sample
           pi_slow_a pi_slow_b log_unit_a log_unit_b [] [] None None None None
           100 _ _ 1 1 eq_refl eq_refl).
Defined.

(** ** The leading numerator *)

Section LeadingNumerator.

Context {T : Type}.
Variable zero : T.
Variable post_func_eval : nat → list (T * T) → work T → work T.
Variable check_termination : work T → work T * list bool.
Variable maxiter : nat.
Variables f1 f2 : nat → list (list T) → list (T * T).

Hypothesis agree : ∀ k xs, (1 ≤ k)%nat → f1 k xs = f2 k xs.

Lemma body_agree (st : @Driver.state T) :
  Driver.body f1 post_func_eval check_termination st
  = Driver.body f2 post_func_eval check_termination st.
Proof.
  destruct st as [[w r] active]. unfold Driver.body, pre_func_eval.
  rewrite agree by lia. done.
Qed.

Lemma loop_agree (fuel : nat) (st : @Driver.state T) :
  Driver.loop f1 post_func_eval check_termination maxiter fuel st
  = Driver.loop f2 post_func_eval check_termination maxiter fuel st.
Proof.
  revert st. induction fuel as [|fuel IH]; intros st; cbn; [done|].
  destruct (Driver.continue maxiter st); [|done].
  rewrite body_agree. apply IH.
Qed.

Lemma driver_agree (w : work T) (shape : nat) :
  Driver._loop zero f1 post_func_eval check_termination maxiter w shape
  = Driver._loop zero f2 post_func_eval check_termination maxiter w shape.
Proof. unfold Driver._loop. by rewrite loop_agree. Qed.

End LeadingNumerator.

Lemma func_agree {T} (a a' b : nat → list (list T) → list T) :
  (∀ k xs, (1 ≤ k)%nat → a k xs = a' k xs) →
  ∀ k xs, (1 ≤ k)%nat → func a b k xs = func a' b k xs.
Proof. intros H k xs Hk. unfold func. by rewrite H. Qed.

(** Only the length of the term-0 numerators reaches the work object. *)
Lemma broadcast_to_length_cases {A} (x x' : list A) (shape : nat) :
  length x = length x' →
  (∃ e, broadcast_to x shape = Raise e ∧ broadcast_to x' shape = Raise e) ∨
  (∃ y y', broadcast_to x shape = Ok y ∧ broadcast_to x' shape = Ok y' ∧
           length y = length y').
Proof.
  intros Hlen. unfold broadcast_to. rewrite <-Hlen.
  destruct (length x =? shape)%nat eqn:Heq.
  - right. by exists x, x'.
  - destruct x as [|y [|y' x]], x' as [|z [|z' x']]; try done.
    + left. by exists ValueError.
    + right. eexists _, _. split; [done|]. split; [done|].
      by rewrite !length_replicate.
    + left. by exists ValueError.
Qed.

Lemma linear_setup_agree np_log (a a' b : nat → list (list float) → list float)
    args eps tiny :
  length (a 0%nat args) = length (a' 0%nat args) →
  Linear.setup np_log a b args eps tiny = Linear.setup np_log a' b args eps tiny.
Proof.
  intros Hlen. unfold Linear.setup, _initialize. rewrite <-Hlen.
  destruct (broadcast_shapes _ _) as [shape|e]; [|done]. cbn.
  destruct (broadcast_to_length_cases _ _ shape Hlen)
    as [(e & -> & ->)|(y & y' & -> & -> & Hl)]; [done|].
  cbn. unfold full_like. by rewrite Hl.
Qed.

Lemma log_setup_agree np_log (a a' b : nat → list (list complex) → list complex)
    args eps tiny :
  length (a 0%nat args) = length (a' 0%nat args) →
  LogMode.setup np_log a b args eps tiny = LogMode.setup np_log a' b args eps tiny.
Proof.
  intros Hlen. unfold LogMode.setup, _initialize. rewrite <-Hlen.
  destruct (broadcast_shapes _ _) as [shape|e]; [|done]. cbn.
  destruct (broadcast_to_length_cases _ _ shape Hlen)
    as [(e & -> & ->)|(y & y' & -> & -> & Hl)]; [done|].
  cbn. unfold full_like. by rewrite Hl.
Qed.

(** C9.  The result does not depend on the value of [a(0, args)]: two
    numerator callables that agree at every term index [n >= 1] and
    whose term-0 outputs have the same shape give the same outcome, be
    it the result record (with [f], [status], [nit] and [nfev]) or an
    error. *)
Theorem leading_numerator_ignored
    (np_log : float → float) (logsumexp2 : complex → complex → complex)
    (al al' bl : nat → list (list float) → list float)
    (ag ag' bg : nat → list (list complex) → list complex)
    (argsl : list (list float)) (argsg : list (list complex))
    (epsl tinyl epsg tinyg : option float) (maxiter : nat) :
  (∀ k xs, (1 ≤ k)%nat → al k xs = al' k xs) →
  length (al 0%nat argsl) = length (al' 0%nat argsl) →
  (∀ k xs, (1 ≤ k)%nat → ag k xs = ag' k xs) →
  length (ag 0%nat argsg) = length (ag' 0%nat argsg) →
  Linear._continued_fraction np_log al bl argsl epsl tinyl maxiter
  = Linear._continued_fraction np_log al' bl argsl epsl tinyl maxiter ∧
  LogMode._continued_fraction logsumexp2 np_log ag bg argsg epsg tinyg maxiter
  = LogMode._continued_fraction logsumexp2 np_log ag' bg argsg epsg tinyg
      maxiter.
Proof.
  intros Hal Hl0 Hag Hg0. split.
  - unfold Linear._continued_fraction.
    rewrite (linear_setup_agree np_log al al' bl argsl epsl tinyl Hl0).
    destruct (Linear.setup _ _ _ _ _ _) as [[w shape]|e]; [|done]. cbn.
    f_equal. apply driver_agree. by apply func_agree.
  - unfold LogMode._continued_fraction.
    rewrite (log_setup_agree np_log ag ag' bg argsg epsg tinyg Hg0).
    destruct (LogMode.setup _ _ _ _ _ _) as [[w shape]|e]; [|done]. cbn.
    f_equal. apply driver_agree. by apply func_agree.
Qed.

Lemma leading_numerator_ignored_witness :
  Linear._continued_fraction (λ _, log_eps64) pi_slow_a pi_slow_b [] None None
    100
  = Linear._continued_fraction (λ _, log_eps64) pi_slow_a' pi_slow_b [] None
      None 100 ∧
  LogMode._continued_fraction logsumexp2_sample (λ _, log_eps64) log_unit_a
    log_unit_b [] None None 100
  = LogMode._continued_fraction logsumexp2_sample (λ _, log_eps64) log_unit_a'
      log_unit_b [] None None 100.
Proof.
  apply (leading_numerator_ignored (λ _, log_eps64) logsumexp2_sample
           pi_slow_a pi_slow_a' pi_slow_b log_unit_a log_unit_a' log_unit_b
           [] [] None None None None 100).
  - intros [|k] xs Hk; [lia|reflexivity].
  - reflexivity.
  - intros [|k] xs Hk; [lia|reflexivity].
  - reflexivity.
Defined.

(** ** Compaction and scattered assignment *)

Lemma lookup_compress {A} (mask : list bool) (x : list A) (j : nat) :
  compress mask x !! j = sel mask j ≫= (x !!.).
Proof.
  revert x j. induction mask as [|m mask IH]; intros [|y x] j; cbn; try done.
  - destruct m; [destruct j|]; cbn; try done;
      by destruct (sel mask _).
  - destruct m.
    + destruct j as [|j]; cbn; [done|].
      rewrite IH. by destruct (sel mask j).
    + rewrite IH. by destruct (sel mask j).
Qed.

Lemma sel_lookup (mask : list bool) (j p : nat) :
  sel mask j = Some p → mask !! p = Some true.
Proof.
  revert j p. induction mask as [|m mask IH]; intros j p; cbn; [done|].
  destruct m.
  - destruct j as [|j]; [by intros [= <-]|].
    destruct (sel mask j) as [q|] eqn:Hq; cbn; [|done].
    intros [= <-]. cbn. by eapply IH.
  - destruct (sel mask j) as [q|] eqn:Hq; cbn; [|done].
    intros [= <-]. cbn. by eapply IH.
Qed.

Lemma sel_exists (mask : list bool) (p : nat) :
  mask !! p = Some true → ∃ j, sel mask j = Some p.
Proof.
  revert p. induction mask as [|m mask IH]; intros p; cbn; [done|].
  destruct p as [|p]; cbn.
  - intros [= ->]. by exists 0%nat.
  - intros Hp. destruct (IH p Hp) as [j Hj].
    destruct m; [exists (S j)|exists j]; by rewrite Hj.
Qed.

Lemma length_compress_eq {A B} (mask : list bool) (x : list A) (y : list B) :
  length x = length y → length (compress mask x) = length (compress mask y).
Proof.
  revert x y. induction mask as [|m mask IH]; intros [|a x] [|b y] Hlen;
    cbn in *; try done.
  destruct m; cbn; [f_equal|]; apply IH; lia.
Qed.

Lemma elem_of_compress {A} (mask : list bool) (x : list A) (v : A) :
  v ∈ compress mask x → v ∈ x.
Proof.
  intros Hv. apply list_elem_of_lookup in Hv as [j Hj].
  rewrite lookup_compress in Hj.
  destruct (sel mask j) as [p|]; [|done]. cbn in Hj.
  apply list_elem_of_lookup. by exists p.
Qed.

Lemma NoDup_compress {A} (mask : list bool) (x : list A) :
  NoDup x → NoDup (compress mask x).
Proof.
  revert x. induction mask as [|m mask IH]; intros [|a x] Hx; cbn;
    try apply NoDup_nil_2.
  apply NoDup_cons in Hx as [Ha Hx].
  destruct m; [|by apply IH].
  apply NoDup_cons. split; [|by apply IH].
  intros Hin. apply Ha. by eapply elem_of_compress.
Qed.

Lemma scatter_lookup_notin {A} (idx : list nat) (vals dst : list A) (i : nat) :
  i ∉ idx → scatter idx vals dst !! i = dst !! i.
Proof.
  revert vals dst. induction idx as [|j idx IH]; intros [|v vals] dst Hi;
    cbn; try done.
  apply not_elem_of_cons in Hi as [Hne Hi].
  rewrite IH by done. by rewrite list_lookup_insert_ne.
Qed.

Lemma scatter_lookup_in {A} (idx : list nat) (vals dst : list A)
    (p i : nat) (v : A) :
  NoDup idx → idx !! p = Some i → vals !! p = Some v →
  (i < length dst)%nat →
  scatter idx vals dst !! i = Some v.
Proof.
  revert vals dst p. induction idx as [|j idx IH]; intros [|u vals] dst p Hnd;
    cbn; try done.
  apply NoDup_cons in Hnd as [Hj Hnd].
  destruct p as [|p]; cbn.
  - intros [= ->] [= ->] Hlt.
    rewrite scatter_lookup_notin by done.
    by rewrite list_lookup_insert_eq.
  - intros Hi Hv Hlt. eapply IH; try done.
    by rewrite length_insert.
Qed.

Lemma any_false (mask : list bool) (j : nat) (m : bool) :
  any mask = false → mask !! j = Some m → m = false.
Proof.
  unfold any. intros Hany Hj.
  destruct m; [|done].
  assert (existsb id mask = true); [|congruence].
  apply existsb_exists. exists true. split; [|done].
  apply list_elem_of_In, list_elem_of_lookup. by exists j.
Qed.

(** ** The batch and its elements *)

Lemma elem_at_compress {T} (mask : list bool) (w : work T) (j : nat) :
  elem_at (Driver.compress_work mask w) j = sel mask j ≫= elem_at w.
Proof.
  unfold elem_at, Driver.compress_work. cbn.
  rewrite !lookup_compress. by destruct (sel mask j).
Qed.

Lemma pick_compress {T} (mask : list bool) (xs : list (list T)) (j p : nat) :
  sel mask j = Some p → pick j (compress mask <$> xs) = pick p xs.
Proof.
  intros Hp. unfold pick. rewrite <-list_fmap_compose.
  apply list_fmap_ext. intros _ x _. cbn.
  by rewrite lookup_compress, Hp.
Qed.

Lemma work_len_compress {T} (mask : list bool) (w : work T) (active : list nat) :
  work_len (length active) w →
  work_len (length (compress mask active)) (Driver.compress_work mask w).
Proof.
  intros (H1 & H2 & H3 & H4 & H5 & H6). unfold work_len. cbn.
  repeat split; try by apply length_compress_eq.
  apply Forall_fmap. eapply Forall_impl; [exact H6|].
  intros x Hx. cbn. by apply length_compress_eq.
Qed.

Lemma traj_done {T} (pstep : T * T → elem T → elem T) conv nf coef e0
    (k d : nat) (s : Z) (f : T) (m : nat) :
  traj pstep conv nf coef e0 k = Done s f m →
  traj pstep conv nf coef e0 (k + d) = Done s f m.
Proof.
  intros H. induction d as [|d IH].
  - by rewrite Nat.add_0_r.
  - rewrite Nat.add_succ_r. cbn. by rewrite IH.
Qed.

Lemma NoDup_bounded_length (l : list nat) (n : nat) :
  NoDup l → (∀ i, i ∈ l → (i < n)%nat) → (length l ≤ n)%nat.
Proof.
  intros Hnd Hlt.
  rewrite <-(length_seq n 0). apply submseteq_length.
  apply NoDup_submseteq; [done|].
  intros i Hi. apply elem_of_seq. specialize (Hlt i Hi). lia.
Qed.

Lemma pick_length {T} (xs : list (list T)) (N i : nat) :
  Forall (λ x, length x = N) xs → (i < N)%nat →
  Forall (λ x, length x = 1%nat) (pick i xs).
Proof.
  intros Hxs Hi. unfold pick. apply Forall_fmap.
  eapply Forall_impl; [exact Hxs|]. intros x Hx. cbn in *.
  destruct (x !! i) eqn:Hxi; [done|].
  apply lookup_ge_None in Hxi. lia.
Qed.

Lemma pick_pick {T} (xs : list (list T)) (N i : nat) :
  Forall (λ x, length x = N) xs → (i < N)%nat →
  pick 0 (pick i xs) = pick i xs.
Proof.
  intros Hxs Hi. unfold pick. rewrite <-list_fmap_compose.
  apply Forall_fmap_ext. eapply Forall_impl; [exact Hxs|].
  intros x Hx. cbn in *. destruct (x !! i) eqn:Hxi; [done|].
  apply lookup_ge_None in Hxi. lia.
Qed.

Section Batch.

Context {T : Type}.
Variable zero : T.
Variables a b : nat → list (list T) → list T.
Variable post_func_eval : nat → list (T * T) → work T → work T.
Variable check_termination : work T → work T * list bool.
Variable maxiter : nat.
Variable pstep : T * T → elem T → elem T.
Variable conv : elem T → bool.
Variable nf : elem T → bool.
Variable e0 : nat → elem T.
Variable eps0 : float.
Variable N : nat.
Variable args0 : list (list T).
Variable arity : nat.

Hypothesis a_elementwise : elementwise arity a.
Hypothesis b_elementwise : elementwise arity b.
Hypothesis args0_arity : length args0 = arity.
Hypothesis args0_len : Forall (λ x, length x = N) args0.
Hypothesis args0_nil : arity = 0%nat → N = 1%nat.

Hypothesis post_at : ∀ k ab w j x e,
  ab !! j = Some x → elem_at w j = Some e →
  elem_at (post_func_eval k ab w) j = Some (pstep x e).
Hypothesis post_len : ∀ k ab w L,
  length ab = L → work_len L w → work_len L (post_func_eval k ab w).
Hypothesis post_frame : ∀ k ab w,
  Work.n (post_func_eval k ab w) = Work.n w ∧
  Work.eps (post_func_eval k ab w) = Work.eps w ∧
  Work.nit (post_func_eval k ab w) = Work.nit w ∧
  Work.status (post_func_eval k ab w) = Work.status w ∧
  Work.args (post_func_eval k ab w) = Work.args w.
Hypothesis check_at : ∀ w j e s,
  Work.eps w = eps0 → elem_at w j = Some e → Work.status w !! j = Some s →
  Work.status (check_termination w).1 !! j
  = Some (if nf e then _EVALUEERR else if conv e then _ECONVERGED else s) ∧
  (check_termination w).2 !! j = Some (if nf e then true else conv e).
Hypothesis check_len : ∀ w L,
  work_len L w →
  work_len L (check_termination w).1 ∧ length (check_termination w).2 = L.
Hypothesis check_frame : ∀ w,
  Work.n (check_termination w).1 = Work.n w ∧
  Work.eps (check_termination w).1 = Work.eps w ∧
  Work.nit (check_termination w).1 = Work.nit w ∧
  Work.args (check_termination w).1 = Work.args w ∧
  ∀ j, elem_at (check_termination w).1 j = elem_at w j.

Local Abbreviation coef := (coef_of zero a b args0).
Local Abbreviation inv := (batch_inv pstep conv nf coef e0 eps0 N args0).
Local Abbreviation ran i := (traj pstep conv nf (coef i) (e0 i)).

(** The termination pass takes the state it is given to the state it
    should leave. *)
Lemma check_termination_inv (k : nat) (st : @Driver.state T) :
  inv true k st → inv false k (Driver._check_termination check_termination st).
Proof.
  destruct st as [[w r] active].
  intros (Hnit & Hn & Heps & Hnd & Hlt & Hlen & Hslots & Hres & Hrec).
  unfold Driver._check_termination.
  pose proof (check_len w _ Hlen) as [Hlen' Hstop].
  pose proof (check_frame w) as (Fn & Feps & Fnit & Fargs & Felem).
  pose proof (λ j e s, check_at w j e s Heps) as Hat.
  destruct (check_termination w) as [w' stop]. cbn [fst snd] in *.
  (* what the check does to the slot of an element in progress *)
  assert (Hslot : ∀ p i, active !! p = Some i →
            ∃ e, ran i k = settle conv nf k e ∧ elem_at w' p = Some e ∧
                 pick p (Work.args w') = pick i args0 ∧
                 stop !! p = Some (if nf e then true else conv e) ∧
                 Work.status w' !! p
                 = Some (if nf e then _EVALUEERR
                         else if conv e then _ECONVERGED else _EINPROGRESS)).
  { intros p i Hp. destruct (Hslots p i Hp) as (e & Hran & He & Hs & Hpick).
    destruct (Hat p e _ He Hs) as [Hs' Hst].
    exists e. rewrite Felem, Fargs. done. }
  destruct (any stop) eqn:Hany.
  - split; [cbn; by rewrite Fnit|]. split; [cbn; by rewrite Fn|].
    split; [cbn; by rewrite Feps|].
    split; [by apply NoDup_compress|].
    split; [intros i Hi; apply Hlt; by eapply elem_of_compress|].
    split; [by apply work_len_compress|].
    split; [|split].
    + intros j i Hj. rewrite lookup_compress in Hj.
      destruct (sel (negb <$> stop) j) as [p|] eqn:Hp; [|done]. cbn in Hj.
      destruct (Hslot p i Hj) as (e & Hran & He & Hpick & Hst & Hs).
      apply sel_lookup in Hp as Hpm. rewrite list_lookup_fmap, Hst in Hpm.
      assert (Hb : (if nf e then true else conv e) = false).
      { cbn in Hpm. injection Hpm as Hpm. by apply negb_true_iff. }
      exists e. unfold settle in Hran.
      destruct (nf e); [done|]. rewrite Hb in Hran, Hs.
      split; [done|]. split; [by rewrite elem_at_compress, Hp|].
      split; [cbn; by rewrite lookup_compress, Hp|].
      unfold Driver.compress_work. cbn [Work.args].
      by erewrite pick_compress.
    + cbn. by rewrite !length_scatter.
    + intros i Hi Hnotin.
      destruct Hres as (Hr1 & Hr2 & Hr3).
      destruct (decide (i ∈ active)) as [Hin|Hout].
      * apply list_elem_of_lookup in Hin as [p Hp].
        destruct (Hslot p i Hp) as (e & Hran & He & Hpick & Hst & Hs).
        destruct (if nf e then true else conv e) eqn:Hb.
        -- destruct (sel_exists stop p Hst) as [q Hq].
           assert (Hidx : compress stop active !! q = Some i).
           { by rewrite lookup_compress, Hq. }
           assert (Hf : Work.fn w' !! p = Some (elem_fn e)).
           { unfold elem_at in He.
             destruct (Work.fn w' !! p); [|done].
             destruct (Work.Cnm1 w' !! p); [|done].
             destruct (Work.Dnm1 w' !! p); [|done].
             destruct (Work.CnDn w' !! p); [|done].
             cbn in He. by injection He as <-. }
           exists (if nf e then _EVALUEERR else _ECONVERGED), (elem_fn e), k.
           split.
           { rewrite Hran. unfold settle. destruct (nf e); [done|].
             by rewrite Hb. }
           cbn. split; [|split].
           ++ eapply scatter_lookup_in; [by apply NoDup_compress|done| |lia].
              rewrite lookup_compress, Hq. cbn. rewrite Hs.
              destruct (nf e); [done|]. by rewrite Hb.
           ++ eapply scatter_lookup_in; [by apply NoDup_compress|done| |lia].
              by rewrite lookup_compress, Hq.
           ++ eapply scatter_lookup_in; [by apply NoDup_compress|done| |lia].
              rewrite lookup_replicate_2; [by rewrite Fnit, Hnit|].
              by eapply lookup_lt_Some.
        -- exfalso. apply Hnotin.
           assert (Hpm : (negb <$> stop) !! p = Some true).
           { by rewrite list_lookup_fmap, Hst. }
           destruct (sel_exists _ p Hpm) as [q Hq].
           apply list_elem_of_lookup. exists q.
           by rewrite lookup_compress, Hq.
      * destruct (Hrec i Hi Hout) as (s & f & m & Hran & H1 & H2 & H3).
        exists s, f, m. split; [done|]. cbn.
        assert (i ∉ compress stop active).
        { intros Hc. apply Hout. by eapply elem_of_compress. }
        by rewrite !scatter_lookup_notin.
  - split; [by rewrite Fnit|]. split; [by rewrite Fn|]. split; [by rewrite Feps|].
    split; [done|]. split; [done|]. split; [done|].
    split; [|done].
    intros p i Hp.
    destruct (Hslot p i Hp) as (e & Hran & He & Hpick & Hst & Hs).
    pose proof (any_false stop p _ Hany Hst) as Hb.
    exists e. unfold settle in Hran.
    destruct (nf e); [done|]. rewrite Hb in Hran, Hs. done.
Qed.

(** The coefficient pair the batch evaluation delivers in the slot of
    an element is the pair of that element evaluated alone. *)
Lemma coef_alone (f : nat → list (list T) → list T) (k i : nat) :
  elementwise arity f → (i < N)%nat →
  f k (pick i args0) !! 0%nat = Some (hd zero (f k (pick i args0))).
Proof.
  intros Hf Hi.
  destruct (Hf k (pick i args0) 1%nat) as [Hlen _].
  - unfold pick. by rewrite length_fmap.
  - by eapply pick_length.
  - done.
  - by destruct (f k (pick i args0)) as [|v [|]].
Qed.

Lemma func_slot (k : nat) (w : work T) (active : list nat) (j i : nat) :
  active ≠ [] → NoDup active → (∀ i, i ∈ active → (i < N)%nat) →
  Forall (λ x, length x = length active) (Work.args w) →
  active !! j = Some i → pick j (Work.args w) = pick i args0 →
  length (func a b k (Work.args w)) = length active ∧
  func a b k (Work.args w) !! j = Some (coef i k).
Proof.
  intros Hne Hnd Hlt Hargs Hj Hpick.
  assert (Har : length (Work.args w) = arity).
  { apply (f_equal length) in Hpick. unfold pick in Hpick.
    rewrite !length_fmap in Hpick. congruence. }
  assert (Hnil : arity = 0%nat → length active = 1%nat).
  { intros H0.
    pose proof (NoDup_bounded_length active N Hnd Hlt) as Hle.
    rewrite (args0_nil H0) in Hle.
    destruct active; [done|]. cbn in *. lia. }
  destruct (a_elementwise k (Work.args w) _ Har Hargs Hnil) as [Hla Ha].
  destruct (b_elementwise k (Work.args w) _ Har Hargs Hnil) as [Hlb Hb].
  assert (Hi : (i < N)%nat).
  { apply Hlt. apply list_elem_of_lookup. by exists j. }
  apply lookup_lt_Some in Hj as Hjlt.
  unfold func. split; [rewrite length_zip; lia|].
  rewrite lookup_zip_with, (Ha j Hjlt), (Hb j Hjlt), Hpick.
  rewrite !coef_alone by done. done.
Qed.

(** One iteration of the driver advances every element in progress by
    one step of its own. *)
Lemma body_inv (k : nat) (st : @Driver.state T) :
  inv false k st → Driver.continue maxiter st = true →
  inv false (S k)
    (Driver.body (func a b) post_func_eval check_termination st).
Proof.
  destruct st as [[w r] active].
  intros (Hnit & Hn & Heps & Hnd & Hlt & Hlen & Hslots & Hres & Hrec) Hc.
  unfold Driver.body, pre_func_eval. apply check_termination_inv.
  assert (Hne : active ≠ []).
  { cbn in Hc. apply andb_true_iff in Hc as [_ Hc].
    destruct active; [done|]. done. }
  set (w1 := Driver.incr_nfev _).
  set (ab := func a b (S (Work.n w)) _).
  pose proof (post_frame (S (Work.n w)) ab w1) as (Fn & Feps & Fnit & Fst & Fargs).
  assert (Hlen1 : work_len (length active) w1) by exact Hlen.
  assert (Hab : ∀ j i, active !! j = Some i →
            pick j (Work.args w) = pick i args0 →
            length ab = length active ∧ ab !! j = Some (coef i (S k))).
  { intros j i Hj Hpick. unfold ab. cbn [Work.args]. rewrite Hn.
    eapply func_slot; try done. by destruct Hlen as (_ & _ & _ & _ & _ & ?). }
  assert (Hablen : length ab = length active).
  { destruct active as [|i0 active']; [done|].
    destruct (Hslots 0%nat i0 eq_refl) as (e & _ & _ & _ & Hpick).
    by destruct (Hab 0%nat i0 eq_refl Hpick). }
  split; [cbn [Driver.incr_nit Work.nit]; rewrite Fnit; cbn; by rewrite Hnit|].
  split; [cbn [Driver.incr_nit Work.n]; rewrite Fn; cbn; by rewrite Hn|].
  split; [cbn [Driver.incr_nit Work.eps]; rewrite Feps; by cbn|].
  split; [done|]. split; [done|].
  split.
  { pose proof (post_len (S (Work.n w)) ab w1 _ Hablen Hlen1) as H. exact H. }
  split; [|split; [done|]].
  - intros j i Hj.
    destruct (Hslots j i Hj) as (e & Hran & He & Hs & Hpick).
    destruct (Hab j i Hj Hpick) as [_ Habj].
    exists (pstep (coef i (S k)) e).
    split; [cbn; by rewrite Hran|].
    split; [exact (post_at (S (Work.n w)) ab w1 j _ e Habj He)|].
    split; [cbn [Driver.incr_nit Work.status]; by rewrite Fst|].
    cbn [Driver.incr_nit Work.args]. by rewrite Fargs.
  - intros i Hi Hout.
    destruct (Hrec i Hi Hout) as (s & f & m & Hran & H1 & H2 & H3).
    exists s, f, m. split; [cbn; by rewrite Hran|done].
Qed.

(** The loop ends in a state in which no element is in progress, or in
    which [maxiter] iterations were made. *)
Lemma loop_inv (fuel k : nat) (st : @Driver.state T) :
  inv false k st → (k + fuel = maxiter)%nat →
  ∃ k', (k' ≤ maxiter)%nat ∧
        inv false k'
          (Driver.loop (func a b) post_func_eval check_termination maxiter
             fuel st) ∧
        (k' = maxiter ∨
         (Driver.loop (func a b) post_func_eval check_termination maxiter
            fuel st).2 = []).
Proof.
  revert k st. induction fuel as [|fuel IH]; intros k st Hinv Hk; cbn.
  - exists k. split; [lia|]. split; [done|]. left. lia.
  - destruct (Driver.continue maxiter st) eqn:Hc.
    + apply (IH (S k)); [by apply body_inv|lia].
    + exists k. split; [lia|]. split; [done|].
      destruct st as [[w r] active]. cbn in *.
      destruct Hinv as (Hnit & _).
      apply andb_false_iff in Hc as [Hc|Hc].
      * apply Nat.ltb_ge in Hc. lia.
      * right. destruct active; [done|]. done.
Qed.

Lemma elem_at_fn (w : work T) (j : nat) (e : elem T) :
  elem_at w j = Some e → Work.fn w !! j = Some (elem_fn e).
Proof.
  unfold elem_at. intros He.
  destruct (Work.fn w !! j); [|done].
  destruct (Work.Cnm1 w !! j); [|done].
  destruct (Work.Dnm1 w !! j); [|done].
  destruct (Work.CnDn w !! j); [|done].
  cbn in He. by injection He as <-.
Qed.

(** The initial driver state. *)
Lemma start_inv (w0 : work T) :
  Work.nit w0 = 0%nat → Work.n w0 = 0%nat → Work.eps w0 = eps0 →
  Work.args w0 = args0 → work_len N w0 →
  (∀ i, (i < N)%nat →
        elem_at w0 i = Some (e0 i) ∧ Work.status w0 !! i = Some _EINPROGRESS) →
  inv false 0 (Driver.start zero check_termination w0 N).
Proof.
  intros Hnit Hn Heps Hargs Hlen Hel. unfold Driver.start.
  apply check_termination_inv.
  split; [done|]. split; [done|]. split; [done|].
  split; [apply NoDup_seq|].
  split; [intros i Hi; apply elem_of_seq in Hi; lia|].
  split; [by rewrite length_seq|].
  split; [|split].
  - intros j i Hj. apply lookup_seq in Hj as [-> Hj]. cbn.
    destruct (Hel j Hj) as [He Hs].
    exists (e0 j). by rewrite Hargs.
  - cbn. by rewrite !length_replicate.
  - intros i Hi Hout. exfalso. apply Hout. apply elem_of_seq. lia.
Qed.

Lemma compress_full {A B} (x : list A) (y : list B) :
  length x = length y → compress (replicate (length x) true) y = y.
Proof.
  revert y.
  induction x as [|u x IH]; intros [|v y] Hlen; cbn in *; try done.
  f_equal. apply IH. lia.
Qed.

(** The result the driver assembles reports, for every element, the
    outcome of that element's own iteration. *)
Lemma prepare_result_final (k : nat) (st : @Driver.state T) (i : nat) :
  inv false k st → (k ≤ maxiter)%nat → (k = maxiter ∨ st.2 = []) →
  (i < N)%nat →
  let r := Driver._prepare_result st in
  let o := final pstep conv nf (coef i) (e0 i) maxiter in
  Res.status r !! i = Some o.1.1 ∧ Res.f r !! i = Some o.1.2 ∧
  Res.nit r !! i = Some o.2.
Proof.
  destruct st as [[w r] active].
  intros (Hnit & Hn & Heps & Hnd & Hlt & Hlen & Hslots & Hres & Hrec) Hk Hend Hi.
  destruct Hlen as (L1 & L2 & L3 & L4 & L5 & L6).
  destruct Hres as (R1 & R2 & R3).
  unfold Driver._prepare_result, Driver._update_active. cbn [fst snd Work.status
    Work.fn Work.nit Res.status Res.f Res.nit].
  unfold full_like.
  rewrite !compress_full by (by rewrite ?length_replicate).
  unfold final.
  destruct (decide (i ∈ active)) as [Hin|Hout].
  - apply list_elem_of_lookup in Hin as [p Hp].
    destruct (Hslots p i Hp) as (e & Hran & He & _).
    assert (k = maxiter) as ->.
    { destruct Hend as [->|Hend]; [done|]. cbn in Hend. by rewrite Hend in Hp. }
    rewrite Hran. cbn [fst snd].
    apply lookup_lt_Some in Hp as Hplt.
    split; [|split]; eapply scatter_lookup_in; try done; try lia.
    + apply lookup_replicate_2. lia.
    + by apply elem_at_fn.
    + rewrite Hnit. by apply lookup_replicate_2.
  - destruct (Hrec i Hi Hout) as (s & f & m & Hran & H1 & H2 & H3).
    replace maxiter with (k + (maxiter - k))%nat by lia.
    rewrite (traj_done _ _ _ _ _ _ _ _ _ _ Hran). cbn [fst snd].
    by rewrite !scatter_lookup_notin.
Qed.

(** The driver, run on a batch, reports for every element the outcome
    of that element's own iteration. *)
Lemma driver_elementwise (w0 : work T) (i : nat) :
  Work.nit w0 = 0%nat → Work.n w0 = 0%nat → Work.eps w0 = eps0 →
  Work.args w0 = args0 → work_len N w0 →
  (∀ i, (i < N)%nat →
        elem_at w0 i = Some (e0 i) ∧ Work.status w0 !! i = Some _EINPROGRESS) →
  (i < N)%nat →
  let r := Driver._loop zero (func a b) post_func_eval check_termination
             maxiter w0 N in
  let o := final pstep conv nf (coef i) (e0 i) maxiter in
  Res.status r !! i = Some o.1.1 ∧ Res.f r !! i = Some o.1.2 ∧
  Res.nit r !! i = Some o.2.
Proof.
  intros Hnit Hn Heps Hargs Hlen Hel Hi.
  pose proof (start_inv w0 Hnit Hn Heps Hargs Hlen Hel) as H0.
  destruct (loop_inv maxiter 0 _ H0 eq_refl) as (k & Hk & Hinv & Hend).
  unfold Driver._loop. by eapply prepare_result_final.
Qed.

End Batch.

(** ** The callbacks are elementwise *)

Lemma elem_at_Some {T} (w : work T) (j : nat) (f C D CD : T) :
  elem_at w j = Some (f, C, D, CD) ↔
  Work.fn w !! j = Some f ∧ Work.Cnm1 w !! j = Some C ∧
  Work.Dnm1 w !! j = Some D ∧ Work.CnDn w !! j = Some CD.
Proof.
  unfold elem_at. split.
  - destruct (Work.fn w !! j); [|done].
    destruct (Work.Cnm1 w !! j); [|done].
    destruct (Work.Dnm1 w !! j); [|done].
    destruct (Work.CnDn w !! j); [|done].
    cbn. by intros [= -> -> -> ->].
  - by intros (-> & -> & -> & ->).
Qed.

Lemma length_mask_self {A} (p : A → bool) (v : A) (x : list A) :
  length (mask_set (p <$> x) v x) = length x.
Proof. apply length_mask_set. by rewrite length_fmap. Qed.

Lemma lookup_mask_self {A} (p : A → bool) (v : A) (x : list A) (i : nat) (y : A) :
  x !! i = Some y → mask_set (p <$> x) v x !! i = Some (if p y then v else y).
Proof.
  intros Hx. erewrite lookup_mask_set; [done| |done].
  by rewrite list_lookup_fmap, Hx.
Qed.

Lemma linear_post_at (tiny : float) k ab (w : work float) j x e :
  ab !! j = Some x → elem_at w j = Some e →
  elem_at (Linear.post_func_eval tiny k ab w) j = Some (linear_step tiny x e).
Proof.
  destruct x as [an bn], e as [[[f Cp] Dp] CD].
  intros Hab He. apply elem_at_Some in He as (Hf & HC & HD & HCD).
  assert (Han : ab.*1 !! j = Some an) by (by rewrite list_lookup_fmap, Hab).
  assert (Hbn : ab.*2 !! j = Some bn) by (by rewrite list_lookup_fmap, Hab).
  apply elem_at_Some. cbn.
  assert (HCn : mask_set
                  ((λ c, (c =? 0)%float) <$>
                   zip_with PrimFloat.add ab.*2
                     (zip_with PrimFloat.div ab.*1 (Work.Cnm1 w)))
                  tiny
                  (zip_with PrimFloat.add ab.*2
                     (zip_with PrimFloat.div ab.*1 (Work.Cnm1 w))) !! j
                = Some (if (bn + an / Cp =? 0)%float then tiny
                        else (bn + an / Cp)%float)).
  { apply (lookup_mask_self (λ c, (c =? 0)%float)).
    by rewrite !lookup_zip_with, Hbn, Han, HC. }
  assert (HDn : ((λ d, (1 / d)%float) <$>
                 mask_set
                   ((λ d, (d =? 0)%float) <$>
                    zip_with PrimFloat.add ab.*2
                      (zip_with PrimFloat.mul ab.*1 (Work.Dnm1 w)))
                   tiny
                   (zip_with PrimFloat.add ab.*2
                      (zip_with PrimFloat.mul ab.*1 (Work.Dnm1 w)))) !! j
                = Some (1 / (if (bn + an * Dp =? 0)%float then tiny
                             else (bn + an * Dp)))%float).
  { rewrite list_lookup_fmap.
    erewrite (lookup_mask_self (λ d, (d =? 0)%float)); [done|].
    by rewrite !lookup_zip_with, Hbn, Han, HD. }
  rewrite !lookup_zip_with, Hf, HCn, HDn. done.
Qed.

Lemma linear_post_len (tiny : float) k ab (w : work float) L :
  length ab = L → work_len L w →
  work_len L (Linear.post_func_eval tiny k ab w).
Proof.
  intros Hab (H1 & H2 & H3 & H4 & H5 & H6).
  unfold work_len. cbn.
  rewrite !length_zip_with, !length_fmap, !length_mask_self,
    !length_zip_with, !length_fmap.
  repeat split; try done; lia.
Qed.

Lemma linear_check_at (w : work float) j e s :
  elem_at w j = Some e → Work.status w !! j = Some s →
  Work.status (Linear.check_termination w).1 !! j
  = Some (if linear_nf e then _EVALUEERR
          else if linear_conv (Work.eps w) e then _ECONVERGED else s) ∧
  (Linear.check_termination w).2 !! j
  = Some (if linear_nf e then true else linear_conv (Work.eps w) e).
Proof.
  destruct e as [[[f Cp] Dp] CD].
  intros He Hs. apply elem_at_Some in He as (Hf & HC & HD & HCD).
  destruct (linear_check_lookup w j CD f s HCD Hf Hs) as [H1 H2].
  cbv zeta in H1, H2. unfold linear_nf, linear_conv, elem_fn. cbn [fst snd].
  rewrite H1, H2. split; [done|]. f_equal.
  destruct (negb (PrimFloat.is_finite f)); [done|].
  by destruct (PrimFloat.ltb (PrimFloat.abs (CD - 1)) (Work.eps w)).
Qed.

Lemma linear_check_len (w : work float) L :
  work_len L w →
  work_len L (Linear.check_termination w).1 ∧
  length (Linear.check_termination w).2 = L.
Proof.
  intros (H1 & H2 & H3 & H4 & H5 & H6).
  unfold work_len, Linear.check_termination, Linear.converged,
    Linear.not_finite, mask_set, full_like. cbn.
  rewrite !length_zip_with, !length_fmap, ?length_replicate.
  repeat split; try done; lia.
Qed.

Lemma log_post_at lse (tiny : float) k ab (w : work complex) j x e :
  ab !! j = Some x → elem_at w j = Some e →
  elem_at (LogMode.post_func_eval lse tiny k ab w) j
  = Some (log_step lse tiny x e).
Proof.
  destruct x as [an bn], e as [[[f Cp] Dp] CD].
  intros Hab He. apply elem_at_Some in He as (Hf & HC & HD & HCD).
  assert (Han : ab.*1 !! j = Some an) by (by rewrite list_lookup_fmap, Hab).
  assert (Hbn : ab.*2 !! j = Some bn) by (by rewrite list_lookup_fmap, Hab).
  apply elem_at_Some. cbn. unfold LogMode._logaddexp.
  assert (HCn : mask_set
                  ((λ c, ceqb c (of_real neg_infinity)) <$>
                   zip_with lse ab.*2 (zip_with csub ab.*1 (Work.Cnm1 w)))
                  (of_real tiny)
                  (zip_with lse ab.*2 (zip_with csub ab.*1 (Work.Cnm1 w))) !! j
                = Some (if ceqb (lse bn (csub an Cp)) (of_real neg_infinity)
                        then of_real tiny else lse bn (csub an Cp))).
  { apply (lookup_mask_self (λ c, ceqb c (of_real neg_infinity))).
    by rewrite !lookup_zip_with, Hbn, Han, HC. }
  assert (HDn : (cneg <$>
                 mask_set
                   ((λ d, ceqb d (of_real neg_infinity)) <$>
                    zip_with lse ab.*2 (zip_with cadd ab.*1 (Work.Dnm1 w)))
                   (of_real tiny)
                   (zip_with lse ab.*2
                      (zip_with cadd ab.*1 (Work.Dnm1 w)))) !! j
                = Some (cneg (if ceqb (lse bn (cadd an Dp))
                                   (of_real neg_infinity)
                              then of_real tiny else lse bn (cadd an Dp)))).
  { rewrite list_lookup_fmap.
    erewrite (lookup_mask_self (λ d, ceqb d (of_real neg_infinity))); [done|].
    by rewrite !lookup_zip_with, Hbn, Han, HD. }
  rewrite !lookup_zip_with, Hf, HCn, HDn. done.
Qed.

Lemma log_post_len lse (tiny : float) k ab (w : work complex) L :
  length ab = L → work_len L w →
  work_len L (LogMode.post_func_eval lse tiny k ab w).
Proof.
  intros Hab (H1 & H2 & H3 & H4 & H5 & H6).
  unfold work_len. cbn. unfold LogMode._logaddexp.
  rewrite !length_zip_with, !length_fmap, !length_mask_self,
    !length_zip_with, !length_fmap.
  repeat split; try done; lia.
Qed.

Lemma log_check_at lse (w : work complex) j e s :
  elem_at w j = Some e → Work.status w !! j = Some s →
  Work.status (LogMode.check_termination lse w).1 !! j
  = Some (if log_nf e then _EVALUEERR
          else if log_conv lse (Work.eps w) e then _ECONVERGED else s) ∧
  (LogMode.check_termination lse w).2 !! j
  = Some (if log_nf e then true else log_conv lse (Work.eps w) e).
Proof.
  destruct e as [[[f Cp] Dp] CD].
  intros He Hs. apply elem_at_Some in He as (Hf & HC & HD & HCD).
  destruct (log_check_lookup lse w j CD f s HCD Hf Hs) as [H1 H2].
  cbv zeta in H1, H2. unfold log_nf, log_conv, elem_fn. cbn [fst snd].
  rewrite H1, H2. split; [done|]. f_equal.
  destruct (negb (cis_finite f || ceqb f (of_real neg_infinity))); [done|].
  by destruct (PrimFloat.ltb (re (lse CD pi_j)) (Work.eps w)).
Qed.

Lemma log_check_len lse (w : work complex) L :
  work_len L w →
  work_len L (LogMode.check_termination lse w).1 ∧
  length (LogMode.check_termination lse w).2 = L.
Proof.
  intros (H1 & H2 & H3 & H4 & H5 & H6).
  unfold work_len, LogMode.check_termination, LogMode.converged,
    LogMode.not_finite, LogMode._logaddexp, mask_set, full_like. cbn.
  rewrite !length_zip_with, !length_fmap, ?length_zip_with,
    ?length_replicate.
  repeat split; try done; lia.
Qed.

(** ** The set-up on elementwise callables *)

Lemma broadcast_to_same {A} (x : list A) (N : nat) :
  length x = N → broadcast_to x N = Ok x.
Proof. intros <-. unfold broadcast_to. by rewrite Nat.eqb_refl. Qed.

Lemma mapM_broadcast_to {A} (xs : list (list A)) (N : nat) :
  Forall (λ x, length x = N) xs →
  mapM (λ arg, broadcast_to arg N) xs = Ok xs.
Proof.
  induction 1 as [|x xs Hx Hxs IH]; [done|].
  simpl. rewrite (broadcast_to_same x N Hx). simpl.
  by rewrite IH.
Qed.

Lemma elementwise_term0 {T} (zero : T) (f : nat → list (list T) → list T)
    (xs : list (list T)) (N i : nat) :
  elementwise (length xs) f →
  Forall (λ x, length x = N) xs → (length xs = 0%nat → N = 1%nat) →
  (i < N)%nat →
  length (f 0%nat xs) = N ∧
  f 0%nat xs !! i = Some (hd zero (f 0%nat (pick i xs))).
Proof.
  intros Hf Hxs Hnil Hi.
  destruct (Hf 0%nat xs N eq_refl Hxs Hnil) as [Hlen Hat].
  split; [done|]. rewrite (Hat i Hi).
  destruct (Hf 0%nat (pick i xs) 1%nat) as [Hlen1 _].
  - unfold pick. by rewrite length_fmap.
  - by eapply pick_length.
  - done.
  - by destruct (f 0%nat (pick i xs)) as [|v [|]].
Qed.

Lemma linear_setup_elementwise np_log
    (a b : nat → list (list float) → list float) args eps tiny (N : nat) :
  elementwise (length args) a → elementwise (length args) b →
  Forall (λ x, length x = N) args → (length args = 0%nat → N = 1%nat) →
  ∃ w, Linear.setup np_log a b args eps tiny = Ok (w, N) ∧
       Work.nit w = 0%nat ∧ Work.n w = 0%nat ∧
       Work.eps w = resolve_eps np_log float64 false eps ∧
       Work.tiny w = resolve_tiny np_log float64 false tiny ∧
       Work.args w = args ∧ work_len N w ∧
       ∀ i, (i < N)%nat →
         elem_at w i
         = Some (linear_e0 (resolve_tiny np_log float64 false tiny) b args i) ∧
         Work.status w !! i = Some _EINPROGRESS.
Proof.
  intros Ha Hb Hargs Hnil.
  destruct (Ha 0%nat args N eq_refl Hargs Hnil) as [Hla _].
  destruct (Hb 0%nat args N eq_refl Hargs Hnil) as [Hlb _].
  unfold Linear.setup, _initialize. rewrite Hla, Hlb.
  unfold broadcast_shapes. rewrite Nat.eqb_refl. cbn [mbind result_bind].
  rewrite !broadcast_to_same by done. cbn [mbind result_bind].
  rewrite mapM_broadcast_to by done. cbn [mbind result_bind].
  rewrite linear_init_state_eq. cbn [length app]. change (0 + ?k)%nat with k.
  unfold load. cbn [lookup list_lookup default Refs.fn Refs.Cnm1 Refs.Dnm1
    Refs.CnDn].
  eexists. split; [reflexivity|].
  set (t := resolve_tiny np_log float64 false tiny).
  assert (Hfn : ∀ i, (i < N)%nat →
            xp_where ((λ x, (x =? 0)%float) <$> b 0%nat args) t (b 0%nat args) !! i
            = Some (linear_e0 t b args i).1.1.1).
  { intros i Hi.
    destruct (elementwise_term0 0%float b args N i Hb Hargs Hnil Hi) as [_ Hbi].
    erewrite lookup_xp_where; [|by rewrite list_lookup_fmap, Hbi|exact Hbi].
    done. }
  assert (Hlfn : length (xp_where ((λ x, (x =? 0)%float) <$> b 0%nat args) t
                           (b 0%nat args)) = N).
  { unfold xp_where. rewrite length_zip_with, length_fmap. lia. }
  do 5 (split; [done|]).
  split.
  { unfold work_len, full_like. cbn [Work.fn Work.Cnm1 Work.Dnm1 Work.CnDn
      Work.status Work.args id].
    rewrite !length_replicate. by rewrite Hlfn, Hla. }
  intros i Hi. split.
  - apply elem_at_Some. cbn [Work.fn Work.Cnm1 Work.Dnm1 Work.CnDn id].
    specialize (Hfn i Hi). unfold full_like. rewrite Hlfn.
    split; [exact Hfn|]. split; [exact Hfn|].
    split; by apply lookup_replicate_2.
  - cbn [Work.status]. unfold full_like. apply lookup_replicate_2.
    by rewrite Hla.
Qed.

Lemma log_setup_elementwise np_log
    (a b : nat → list (list complex) → list complex) args eps tiny (N : nat) :
  elementwise (length args) a → elementwise (length args) b →
  Forall (λ x, length x = N) args → (length args = 0%nat → N = 1%nat) →
  ∃ w, LogMode.setup np_log a b args eps tiny = Ok (w, N) ∧
       Work.nit w = 0%nat ∧ Work.n w = 0%nat ∧
       Work.eps w = resolve_eps np_log complex128 true eps ∧
       Work.tiny w = resolve_tiny np_log complex128 true tiny ∧
       Work.args w = args ∧ work_len N w ∧
       ∀ i, (i < N)%nat →
         elem_at w i
         = Some (log_e0 (resolve_tiny np_log complex128 true tiny) b args i) ∧
         Work.status w !! i = Some _EINPROGRESS.
Proof.
  intros Ha Hb Hargs Hnil.
  destruct (Ha 0%nat args N eq_refl Hargs Hnil) as [Hla _].
  destruct (Hb 0%nat args N eq_refl Hargs Hnil) as [Hlb _].
  unfold LogMode.setup, _initialize. rewrite Hla, Hlb.
  unfold broadcast_shapes. rewrite Nat.eqb_refl. cbn [mbind result_bind].
  rewrite !broadcast_to_same by done. cbn [mbind result_bind].
  rewrite mapM_broadcast_to by done. cbn [mbind result_bind].
  rewrite log_init_state_eq. cbn [length app]. change (0 + ?k)%nat with k.
  unfold load. cbn [lookup list_lookup default Refs.fn Refs.Cnm1 Refs.Dnm1
    Refs.CnDn].
  eexists. split; [reflexivity|].
  set (t := resolve_tiny np_log complex128 true tiny).
  assert (Hfn : ∀ i, (i < N)%nat →
            xp_where ((λ x, ceqb x (of_real neg_infinity)) <$> b 0%nat args)
              (of_real t) (b 0%nat args) !! i
            = Some (log_e0 t b args i).1.1.1).
  { intros i Hi.
    destruct (elementwise_term0 (of_real 0%float) b args N i Hb Hargs Hnil Hi)
      as [_ Hbi].
    erewrite lookup_xp_where; [|by rewrite list_lookup_fmap, Hbi|exact Hbi].
    done. }
  assert (Hlfn : length (xp_where
                           ((λ x, ceqb x (of_real neg_infinity)) <$> b 0%nat args)
                           (of_real t) (b 0%nat args)) = N).
  { unfold xp_where. rewrite length_zip_with, length_fmap. lia. }
  do 5 (split; [done|]).
  split.
  { unfold work_len, full_like. cbn [Work.fn Work.Cnm1 Work.Dnm1 Work.CnDn
      Work.status Work.args id].
    rewrite !length_replicate. by rewrite Hlfn, Hla. }
  intros i Hi. split.
  - apply elem_at_Some. cbn [Work.fn Work.Cnm1 Work.Dnm1 Work.CnDn id].
    specialize (Hfn i Hi). unfold full_like. rewrite Hlfn.
    split; [exact Hfn|]. split; [exact Hfn|].
    split; by apply lookup_replicate_2.
  - cbn [Work.status]. unfold full_like. apply lookup_replicate_2.
    by rewrite Hla.
Qed.

(** ** Batches and single instances *)

Lemma linear_batch_result np_log
    (a b : nat → list (list float) → list float) args eps tiny maxiter
    (N i : nat) :
  elementwise (length args) a → elementwise (length args) b →
  Forall (λ x, length x = N) args → (length args = 0%nat → N = 1%nat) →
  (i < N)%nat →
  ∃ r, Linear._continued_fraction np_log a b args eps tiny maxiter = Ok r ∧
       let t := resolve_tiny np_log float64 false tiny in
       let o := final (linear_step t)
                  (linear_conv (resolve_eps np_log float64 false eps))
                  linear_nf (coef_of 0%float a b args i)
                  (linear_e0 t b args i) maxiter in
       Res.status r !! i = Some o.1.1 ∧ Res.f r !! i = Some o.1.2 ∧
       Res.nit r !! i = Some o.2.
Proof.
  intros Ha Hb Hargs Hnil Hi.
  destruct (linear_setup_elementwise np_log a b args eps tiny N Ha Hb Hargs Hnil)
    as (w & Hs & Hnit & Hn & Heps & Htiny & Hwargs & Hlen & Hel).
  unfold Linear._continued_fraction. rewrite Hs. cbn [mbind result_bind].
  eexists. split; [reflexivity|]. rewrite Htiny.
  apply (driver_elementwise 0%float a b
           (Linear.post_func_eval (resolve_tiny np_log float64 false tiny))
           Linear.check_termination maxiter
           (linear_step (resolve_tiny np_log float64 false tiny))
           (linear_conv (resolve_eps np_log float64 false eps)) linear_nf
           (linear_e0 (resolve_tiny np_log float64 false tiny) b args)
           (resolve_eps np_log float64 false eps) N args (length args));
    try done.
  - intros. by apply linear_post_at.
  - intros. by apply linear_post_len.
  - intros w' j e s <-. apply linear_check_at.
  - intros. by apply linear_check_len.
Qed.

Lemma log_batch_result lse np_log
    (a b : nat → list (list complex) → list complex) args eps tiny maxiter
    (N i : nat) :
  elementwise (length args) a → elementwise (length args) b →
  Forall (λ x, length x = N) args → (length args = 0%nat → N = 1%nat) →
  (i < N)%nat →
  ∃ r, LogMode._continued_fraction lse np_log a b args eps tiny maxiter = Ok r ∧
       let t := resolve_tiny np_log complex128 true tiny in
       let o := final (log_step lse t)
                  (log_conv lse (resolve_eps np_log complex128 true eps))
                  log_nf (coef_of (of_real 0%float) a b args i)
                  (log_e0 t b args i) maxiter in
       Res.status r !! i = Some o.1.1 ∧ Res.f r !! i = Some o.1.2 ∧
       Res.nit r !! i = Some o.2.
Proof.
  intros Ha Hb Hargs Hnil Hi.
  destruct (log_setup_elementwise np_log a b args eps tiny N Ha Hb Hargs Hnil)
    as (w & Hs & Hnit & Hn & Heps & Htiny & Hwargs & Hlen & Hel).
  unfold LogMode._continued_fraction. rewrite Hs. cbn [mbind result_bind].
  eexists. split; [reflexivity|]. rewrite Htiny.
  apply (driver_elementwise (of_real 0%float) a b
           (LogMode.post_func_eval lse
              (resolve_tiny np_log complex128 true tiny))
           (LogMode.check_termination lse) maxiter
           (log_step lse (resolve_tiny np_log complex128 true tiny))
           (log_conv lse (resolve_eps np_log complex128 true eps)) log_nf
           (log_e0 (resolve_tiny np_log complex128 true tiny) b args)
           (resolve_eps np_log complex128 true eps) N args (length args));
    try done.
  - intros. by apply log_post_at.
  - intros. by apply log_post_len.
  - intros w' j e s <-. apply log_check_at.
  - intros. by apply log_check_len.
Qed.

Lemma coef_of_pick {T} (zero : T) (a b : nat → list (list T) → list T)
    (args : list (list T)) (N i : nat) :
  Forall (λ x, length x = N) args → (i < N)%nat →
  coef_of zero a b (pick i args) 0 = coef_of zero a b args i.
Proof.
  intros Hargs Hi. unfold coef_of.
  by rewrite (pick_pick args N i Hargs Hi).
Qed.

Lemma linear_alone np_log
    (a b : nat → list (list float) → list float) args eps tiny maxiter
    (N i : nat) :
  elementwise (length args) a → elementwise (length args) b →
  Forall (λ x, length x = N) args → (length args = 0%nat → N = 1%nat) →
  (i < N)%nat →
  ∃ r r1,
    Linear._continued_fraction np_log a b args eps tiny maxiter = Ok r ∧
    Linear._continued_fraction np_log a b (pick i args) eps tiny maxiter
    = Ok r1 ∧
    is_Some (Res.f r !! i) ∧
    Res.f r1 !! 0%nat = Res.f r !! i ∧
    Res.nit r1 !! 0%nat = Res.nit r !! i ∧
    Res.status r1 !! 0%nat = Res.status r !! i.
Proof.
  intros Ha Hb Hargs Hnil Hi.
  destruct (linear_batch_result np_log a b args eps tiny maxiter N i
              Ha Hb Hargs Hnil Hi) as (r & Hr & H1 & H2 & H3).
  assert (Hpl : length (pick i args) = length args).
  { unfold pick. by rewrite length_fmap. }
  destruct (linear_batch_result np_log a b (pick i args) eps tiny maxiter 1 0)
    as (r1 & Hr1 & H4 & H5 & H6);
    [by rewrite Hpl|by rewrite Hpl|by eapply pick_length|done|lia|].
  exists r, r1. split; [done|]. split; [done|].
  rewrite (coef_of_pick _ _ _ _ N i Hargs Hi) in H4, H5, H6.
  unfold linear_e0 in H4, H5, H6.
  rewrite (pick_pick args N i Hargs Hi) in H4, H5, H6.
  unfold linear_e0 in H1, H2, H3.
  rewrite H1, H2, H3, H4, H5, H6. by split.
Qed.

Lemma log_alone lse np_log
    (a b : nat → list (list complex) → list complex) args eps tiny maxiter
    (N i : nat) :
  elementwise (length args) a → elementwise (length args) b →
  Forall (λ x, length x = N) args → (length args = 0%nat → N = 1%nat) →
  (i < N)%nat →
  ∃ r r1,
    LogMode._continued_fraction lse np_log a b args eps tiny maxiter = Ok r ∧
    LogMode._continued_fraction lse np_log a b (pick i args) eps tiny maxiter
    = Ok r1 ∧
    is_Some (Res.f r !! i) ∧
    Res.f r1 !! 0%nat = Res.f r !! i ∧
    Res.nit r1 !! 0%nat = Res.nit r !! i ∧
    Res.status r1 !! 0%nat = Res.status r !! i.
Proof.
  intros Ha Hb Hargs Hnil Hi.
  destruct (log_batch_result lse np_log a b args eps tiny maxiter N i
              Ha Hb Hargs Hnil Hi) as (r & Hr & H1 & H2 & H3).
  assert (Hpl : length (pick i args) = length args).
  { unfold pick. by rewrite length_fmap. }
  destruct (log_batch_result lse np_log a b (pick i args) eps tiny maxiter 1 0)
    as (r1 & Hr1 & H4 & H5 & H6);
    [by rewrite Hpl|by rewrite Hpl|by eapply pick_length|done|lia|].
  exists r, r1. split; [done|]. split; [done|].
  rewrite (coef_of_pick _ _ _ _ N i Hargs Hi) in H4, H5, H6.
  unfold log_e0 in H4, H5, H6.
  rewrite (pick_pick args N i Hargs Hi) in H4, H5, H6.
  unfold log_e0 in H1, H2, H3.
  rewrite H1, H2, H3, H4, H5, H6. by split.
Qed.

(** The callables of the examples are elementwise. *)
Lemma machin_a_elementwise : elementwise 2 machin_a.
Proof.
  intros k xs L Hlen HF _.
  destruct xs as [|a1 [|uv [|? ?]]]; try done.
  apply Forall_cons in HF as [Ha1 HF]. apply Forall_cons in HF as [Huv _].
  split.
  - destruct k as [|[|k]]; cbn; by rewrite ?length_fmap.
  - intros i Hi. unfold pick. cbn.
    destruct (lookup_lt_is_Some_2 a1 i) as [v Hv]; [lia|].
    destruct (lookup_lt_is_Some_2 uv i) as [u Hu]; [lia|].
    rewrite ?Hv, ?Hu. cbn.
    destruct k as [|[|k]]; cbn; by rewrite ?list_lookup_fmap, ?Hv.
Qed.

Lemma machin_b_elementwise : elementwise 2 machin_b.
Proof.
  intros k xs L Hlen HF _.
  destruct xs as [|a1 [|uv [|? ?]]]; try done.
  apply Forall_cons in HF as [Ha1 HF]. apply Forall_cons in HF as [Huv _].
  split.
  - destruct k as [|k]; cbn; by rewrite ?length_fmap.
  - intros i Hi. unfold pick. cbn.
    destruct (lookup_lt_is_Some_2 a1 i) as [v Hv]; [lia|].
    destruct (lookup_lt_is_Some_2 uv i) as [u Hu]; [lia|].
    rewrite ?Hv, ?Hu. cbn.
    destruct k as [|k]; cbn; by rewrite ?list_lookup_fmap, ?Hu.
Qed.

Lemma log_batch_a_elementwise : elementwise 1 log_batch_a.
Proof.
  intros k xs L Hlen HF _.
  destruct xs as [|x [|? ?]]; try done.
  apply Forall_cons in HF as [Hx _].
  split; [done|].
  intros i Hi. unfold pick. cbn.
  destruct (lookup_lt_is_Some_2 x i) as [v Hv]; [lia|].
  by rewrite Hv.
Qed.

Lemma log_batch_b_elementwise : elementwise 1 log_batch_b.
Proof.
  intros k xs L Hlen HF _.
  destruct xs as [|x [|? ?]]; try done.
  apply Forall_cons in HF as [Hx _].
  split; [cbn; by rewrite length_fmap|].
  intros i Hi. unfold pick. cbn.
  destruct (lookup_lt_is_Some_2 x i) as [v Hv]; [lia|].
  by rewrite list_lookup_fmap, Hv.
Qed.

(** C7.  For elementwise coefficient callables (the embedding's
    callables are functions, hence non-mutating), evaluating a batch in
    one call yields, for each element, the same [f], [nit] and [status]
    as evaluating that instance alone in its own call. *)
Theorem batch_independence
    (np_log : float → float) (logsumexp2 : complex → complex → complex)
    (al bl : nat → list (list float) → list float)
    (ag bg : nat → list (list complex) → list complex)
    (argsl : list (list float)) (argsg : list (list complex))
    (epsl tinyl epsg tinyg : option float) (maxiter : nat)
    (Nl Ng il ig : nat) :
  elementwise (length argsl) al → elementwise (length argsl) bl →
  Forall (λ x, length x = Nl) argsl → (length argsl = 0%nat → Nl = 1%nat) →
  (il < Nl)%nat →
  elementwise (length argsg) ag → elementwise (length argsg) bg →
  Forall (λ x, length x = Ng) argsg → (length argsg = 0%nat → Ng = 1%nat) →
  (ig < Ng)%nat →
  (∃ r r1,
     Linear._continued_fraction np_log al bl argsl epsl tinyl maxiter = Ok r ∧
     Linear._continued_fraction np_log al bl (pick il argsl) epsl tinyl maxiter
     = Ok r1 ∧
     is_Some (Res.f r !! il) ∧
     Res.f r1 !! 0%nat = Res.f r !! il ∧
     Res.nit r1 !! 0%nat = Res.nit r !! il ∧
     Res.status r1 !! 0%nat = Res.status r !! il) ∧
  (∃ r r1,
     LogMode._continued_fraction logsumexp2 np_log ag bg argsg epsg tinyg
       maxiter = Ok r ∧
     LogMode._continued_fraction logsumexp2 np_log ag bg (pick ig argsg) epsg
       tinyg maxiter = Ok r1 ∧
     is_Some (Res.f r !! ig) ∧
     Res.f r1 !! 0%nat = Res.f r !! ig ∧
     Res.nit r1 !! 0%nat = Res.nit r !! ig ∧
     Res.status r1 !! 0%nat = Res.status r !! ig).
Proof.
  intros Hal Hbl Hargsl Hnl Hil Hag Hbg Hargsg Hng Hig. split.
  - by eapply linear_alone.
  - by eapply log_alone.
Qed.

(** The two continued fractions of Machin's formula, and a batch of two
    in log mode. *)
Lemma batch_independence_witness :
  (∃ r r1,
     Linear._continued_fraction (λ _, log_eps64) machin_a machin_b
       [[16; 4]; [5; 239]]%float None None 100 = Ok r ∧
     Linear._continued_fraction (λ _, log_eps64) machin_a machin_b
       (pick 1 [[16; 4]; [5; 239]]%float) None None 100 = Ok r1 ∧
     is_Some (Res.f r !! 1%nat) ∧
     Res.f r1 !! 0%nat = Res.f r !! 1%nat ∧
     Res.nit r1 !! 0%nat = Res.nit r !! 1%nat ∧
     Res.status r1 !! 0%nat = Res.status r !! 1%nat) ∧
  (∃ r r1,
     LogMode._continued_fraction logsumexp2_sample (λ _, log_eps64)
       log_batch_a log_batch_b [[(0, 0); (1, 0)]]%float None None 100 = Ok r ∧
     LogMode._continued_fraction logsumexp2_sample (λ _, log_eps64)
       log_batch_a log_batch_b (pick 0 [[(0, 0); (1, 0)]]%float) None None 100
     = Ok r1 ∧
     is_Some (Res.f r !! 0%nat) ∧
     Res.f r1 !! 0%nat = Res.f r !! 0%nat ∧
     Res.nit r1 !! 0%nat = Res.nit r !! 0%nat ∧
     Res.status r1 !! 0%nat = Res.status r !! 0%nat).
Proof.
  apply (batch_independence (λ _, log_eps64) logsumexp2_sample
           machin_a machin_b log_batch_a log_batch_b
           [[16; 4]; [5; 239]]%float [[(0, 0); (1, 0)]]%float
           None None None None 100 2 2 1 0).
  - exact machin_a_elementwise.
  - exact machin_b_elementwise.
  - repeat constructor.
  - discriminate.
  - lia.
  - exact log_batch_a_elementwise.
  - exact log_batch_b_elementwise.
  - repeat constructor.
  - discriminate.
  - lia.
Defined.

(** ** Input validation *)

Lemma SFeqb_refl_finite (s : bool) (m : positive) (e : Z) :
  SFeqb (S754_finite s m e) (S754_finite s m e) = true.
Proof.
  unfold SFeqb, SFcompare.
  destruct s; by rewrite Z.compare_refl, Pos.compare_refl.
Qed.

Lemma is_nan_not_integer (x : float) :
  PrimFloat.is_nan x = true → float_is_integer x = false.
Proof.
  unfold PrimFloat.is_nan, float_is_integer.
  rewrite FloatAxioms.eqb_spec.
  destruct (Prim2SF x) as [[]|[]| |s m e]; try done.
  by rewrite SFeqb_refl_finite.
Qed.

Lemma is_infinity_not_integer (x : float) :
  PrimFloat.is_infinity x = true → float_is_integer x = false.
Proof.
  unfold PrimFloat.is_infinity, float_is_integer.
  rewrite FloatAxioms.eqb_spec, FloatAxioms.abs_spec.
  replace (Prim2SF infinity) with (S754_infinity false) by reflexivity.
  destruct (Prim2SF x) as [[]|[]| |[] m e]; done.
Qed.















(** C10, as the code has it.  When [args] is not iterable (a scalar, or
    an array of zero dimensions), validation wraps it into a one-element
    tuple, and the outcome is that of passing [(args,)]; an iterable
    [args], which includes an array of one or more dimensions, is passed
    through unchanged. *)
Theorem args_wrapped (a b x : pyval) (tolerances : option (gmap string tolval))
    (maxiter : iterval) (log : pyval) :
  np_iterable x = false →
  _continued_fraction_iv a b x tolerances maxiter log
  = _continued_fraction_iv a b (PyTuple [x]) tolerances maxiter log ∧
  (∀ v, _continued_fraction_iv a b x tolerances maxiter log = Ok v →
        v.1.1.1.1.2 = PyTuple [x]) ∧
  (∀ y v, np_iterable y = true →
          _continued_fraction_iv a b y tolerances maxiter log = Ok v →
          v.1.1.1.1.2 = y).
Proof.
  intros Hx. unfold _continued_fraction_iv. rewrite Hx. cbn [negb np_iterable].
  split; [done|]. split.
  - intros v Hv.
    destruct (negb (callable a) || negb (callable b)); [done|].
    destruct (np_asarray2 _ _) as [tols|]; [|done]. cbn in Hv.
    destruct (truthy log) as [bl|]; [|done]. cbn in Hv.
    destruct (_ || _ || _ || _); [done|].
    destruct (py_int maxiter) as [k|]; [|done]. cbn in Hv.
    destruct (_ || _); [done|].
    destruct (negb (isinstance_bool log)); [done|].
    by injection Hv as <-.
  - intros y v Hy Hv. rewrite Hy in Hv. cbn [negb] in Hv.
    destruct (negb (callable a) || negb (callable b)); [done|].
    destruct (np_asarray2 _ _) as [tols|]; [|done]. cbn in Hv.
    destruct (truthy log) as [bl|]; [|done]. cbn in Hv.
    destruct (_ || _ || _ || _); [done|].
    destruct (py_int maxiter) as [k|]; [|done]. cbn in Hv.
    destruct (_ || _); [done|].
    destruct (negb (isinstance_bool log)); [done|].
    by injection Hv as <-.
Qed.

(** A bare scalar and an array of zero dimensions. *)
Lemma args_wrapped_witness :
  _continued_fraction_iv (PyFunction "a") (PyFunction "b") (PyFloat 2) None
    (MInt 100) (PyBool false)
  = _continued_fraction_iv (PyFunction "a") (PyFunction "b")
      (PyTuple [PyFloat 2]) None (MInt 100) (PyBool false) ∧
  _continued_fraction_iv (PyFunction "a") (PyFunction "b") (PyArray [] [2%float])
    None (MInt 100) (PyBool false)
  = _continued_fraction_iv (PyFunction "a") (PyFunction "b")
      (PyTuple [PyArray [] [2%float]]) None (MInt 100) (PyBool false).
Proof.
  split.
  - exact (proj1 (args_wrapped (PyFunction "a") (PyFunction "b") (PyFloat 2)
                    None (MInt 100) (PyBool false) eq_refl)).
  - exact (proj1 (args_wrapped (PyFunction "a") (PyFunction "b")
                    (PyArray [] [2%float]) None (MInt 100) (PyBool false)
                    eq_refl)).
Defined.

(** C10 as stated fails for a single array of one or more dimensions:
    it is iterable, so it is passed through as the sequence of its
    entries and not wrapped into a one-element tuple. *)
Lemma single_array_counterexample :
  let x := PyArray [2%nat] [1; 2]%float in
  np_iterable x = true ∧
  _continued_fraction_iv (PyFunction "a") (PyFunction "b") x None (MInt 100)
    (PyBool false)
  = Ok (PyFunction "a", PyFunction "b", x, None, None, MInt 100, PyBool false) ∧
  _continued_fraction_iv (PyFunction "a") (PyFunction "b") x None (MInt 100)
    (PyBool false)
  ≠ _continued_fraction_iv (PyFunction "a") (PyFunction "b") (PyTuple [x]) None
      (MInt 100) (PyBool false).
Proof.
  cbv zeta. split; [reflexivity|]. split; [reflexivity|].
  intros H. vm_compute in H. discriminate.
Qed.

(** * Further properties of the callbacks, the set-up and the validation *)

(** ** Floats that are not numbers *)

Lemma is_nan_SF (x : float) :
  PrimFloat.is_nan x = true ↔ Prim2SF x = S754_nan.
Proof.
  unfold PrimFloat.is_nan. rewrite FloatAxioms.eqb_spec.
  destruct (Prim2SF x) as [[]|[]| |s m e]; try (split; done).
  rewrite SFeqb_refl_finite. split; done.
Qed.

Lemma is_nan_add_l (x y : float) :
  PrimFloat.is_nan x = true → PrimFloat.is_nan (x + y) = true.
Proof.
  rewrite !is_nan_SF, FloatAxioms.add_spec. intros ->. done.
Qed.

Lemma is_nan_add_r (x y : float) :
  PrimFloat.is_nan y = true → PrimFloat.is_nan (x + y) = true.
Proof.
  rewrite !is_nan_SF, FloatAxioms.add_spec. intros ->.
  by destruct (Prim2SF x).
Qed.

Lemma is_nan_mul_l (x y : float) :
  PrimFloat.is_nan x = true → PrimFloat.is_nan (x * y) = true.
Proof.
  rewrite !is_nan_SF, FloatAxioms.mul_spec. intros ->. done.
Qed.

Lemma is_nan_mul_r (x y : float) :
  PrimFloat.is_nan y = true → PrimFloat.is_nan (x * y) = true.
Proof.
  rewrite !is_nan_SF, FloatAxioms.mul_spec. intros ->.
  by destruct (Prim2SF x).
Qed.

Lemma is_nan_div_r (x y : float) :
  PrimFloat.is_nan y = true → PrimFloat.is_nan (x / y) = true.
Proof.
  rewrite !is_nan_SF, FloatAxioms.div_spec. intros ->.
  by destruct (Prim2SF x).
Qed.

Lemma is_nan_eqb (x y : float) :
  PrimFloat.is_nan x = true → PrimFloat.eqb x y = false.
Proof.
  rewrite is_nan_SF, FloatAxioms.eqb_spec. intros ->. done.
Qed.

Lemma is_nan_not_finite (x : float) :
  PrimFloat.is_nan x = true → PrimFloat.is_finite x = false.
Proof. unfold PrimFloat.is_finite. by intros ->. Qed.

(** A float that is not finite has no residual below any threshold. *)
Lemma residual_not_finite (c e : float) :
  PrimFloat.is_finite c = false →
  PrimFloat.ltb (PrimFloat.abs (c - 1)%float) e = false.
Proof.
  unfold PrimFloat.is_finite, PrimFloat.is_nan, PrimFloat.is_infinity.
  rewrite !FloatAxioms.eqb_spec, !FloatAxioms.ltb_spec, !FloatAxioms.abs_spec,
    FloatAxioms.sub_spec.
  replace (Prim2SF infinity) with (S754_infinity false) by reflexivity.
  replace (Prim2SF 1) with (S754_finite false 4503599627370496 (-52))
    by reflexivity.
  destruct (Prim2SF c) as [[]|[]| |s m x]; try done.
  - by destruct (Prim2SF e) as [[]|[]| |[] m' x'].
  - by destruct (Prim2SF e) as [[]|[]| |[] m' x'].
  - rewrite SFeqb_refl_finite. by destruct s.
Qed.

(** The order of two finite floats, by sign, exponent and mantissa. *)
Lemma SFcompare_finite (s1 s2 : bool) (m1 m2 : positive) (e1 e2 : Z) (c : comparison) :
  SFcompare (S754_finite s1 m1 e1) (S754_finite s2 m2 e2) = Some c →
  match c with
  | Lt => (s1 = true ∧ s2 = false) ∨
          (s1 = false ∧ s2 = false ∧ (e1 < e2 ∨ (e1 = e2 ∧ (m1 < m2)%positive))) ∨
          (s1 = true ∧ s2 = true ∧ (e2 < e1 ∨ (e1 = e2 ∧ (m2 < m1)%positive)))
  | Eq => s1 = s2 ∧ e1 = e2 ∧ m1 = m2
  | Gt => (s1 = false ∧ s2 = true) ∨
          (s1 = false ∧ s2 = false ∧ (e2 < e1 ∨ (e1 = e2 ∧ (m2 < m1)%positive))) ∨
          (s1 = true ∧ s2 = true ∧ (e1 < e2 ∨ (e1 = e2 ∧ (m1 < m2)%positive)))
  end.
Proof.
  unfold SFcompare.
  change (Pos.compare_cont Eq m1 m2) with (Pos.compare m1 m2).
  destruct s1, s2; destruct (Z.compare_spec e1 e2) as [He|He|He];
    destruct (Pos.compare_spec m1 m2) as [Hm|Hm|Hm]; cbn; intros [= <-];
    naive_solver lia.
Qed.

Lemma SFcompare_finite_Lt (s1 s2 : bool) (m1 m2 : positive) (e1 e2 : Z) :
  (s1 = true ∧ s2 = false) ∨
  (s1 = false ∧ s2 = false ∧ (e1 < e2 ∨ (e1 = e2 ∧ (m1 < m2)%positive))) ∨
  (s1 = true ∧ s2 = true ∧ (e2 < e1 ∨ (e1 = e2 ∧ (m2 < m1)%positive))) →
  SFcompare (S754_finite s1 m1 e1) (S754_finite s2 m2 e2) = Some Lt.
Proof.
  unfold SFcompare.
  change (Pos.compare_cont Eq m1 m2) with (Pos.compare m1 m2).
  destruct s1, s2; destruct (Z.compare_spec e1 e2) as [He|He|He];
    destruct (Pos.compare_spec m1 m2) as [Hm|Hm|Hm]; cbn; intros H;
    try done; exfalso; naive_solver lia.
Qed.

(** The order of floats is transitive: below a threshold, below every
    larger one. *)
Lemma ltb_leb_trans (r e1 e2 : float) :
  PrimFloat.ltb r e1 = true → PrimFloat.leb e1 e2 = true →
  PrimFloat.ltb r e2 = true.
Proof.
  rewrite !FloatAxioms.ltb_spec, FloatAxioms.leb_spec.
  unfold SFltb, SFleb.
  destruct (Prim2SF r) as [sr|sr| |sr mr xr],
    (Prim2SF e1) as [s1|s1| |s1 m1 x1], (Prim2SF e2) as [s2|s2| |s2 m2 x2];
    try (by cbn);
    try (by destruct sr, s1, s2); try (by destruct sr, s1);
    try (by destruct s1, s2); try (by destruct sr, s2).
  destruct (SFcompare (S754_finite sr mr xr) (S754_finite s1 m1 x1))
    as [[]|] eqn:E1; try done.
  destruct (SFcompare (S754_finite s1 m1 x1) (S754_finite s2 m2 x2))
    as [[]|] eqn:E2; try done; intros _ _;
    apply SFcompare_finite in E1, E2;
    rewrite SFcompare_finite_Lt; try done; naive_solver lia.
Qed.

(** Nothing is below a threshold that is not positive. *)
Lemma ltb_abs_positive (y e : float) :
  PrimFloat.ltb (PrimFloat.abs y) e = true → PrimFloat.ltb 0 e = true.
Proof.
  rewrite !FloatAxioms.ltb_spec, FloatAxioms.abs_spec.
  replace (Prim2SF 0) with (S754_zero false) by reflexivity.
  unfold SFltb.
  destruct (Prim2SF y) as [sy|sy| |sy my xy], (Prim2SF e) as [s|s| |s m x];
    cbn; try done; try (by destruct s).
Qed.

(** ** The Lentz step in log mode *)

(** X1.  In log mode one Lentz step computes, for the element in slot
    [i] of the active batch: [denom = logaddexp(bn, an + Dnm1)],
    replaced by [tiny] when it equals [-inf]; [Dn = -denom];
    [Cn = logaddexp(bn, an - Cnm1)], replaced by [tiny] when it equals
    [-inf]; [CnDn = Cn + Dn]; [fn] increased by [CnDn]; and [Cnm1],
    [Dnm1] overwritten with [Cn], [Dn]. *)
Theorem lentz_step_log (logsumexp2 : complex → complex → complex)
    (tiny : float) (k i : nat) (ab : list (complex * complex))
    (w : work complex) (an bn Cp Dp f CD : complex) :
  ab !! i = Some (an, bn) →
  Work.Cnm1 w !! i = Some Cp →
  Work.Dnm1 w !! i = Some Dp →
  Work.fn w !! i = Some f →
  Work.CnDn w !! i = Some CD →
  let zero := of_real neg_infinity in
  let denom0 := logsumexp2 bn (cadd an Dp) in
  let denom := if ceqb denom0 zero then of_real tiny else denom0 in
  let Dn := cneg denom in
  let Cn0 := logsumexp2 bn (csub an Cp) in
  let Cn := if ceqb Cn0 zero then of_real tiny else Cn0 in
  let CnDn := cadd Cn Dn in
  let w' := LogMode.post_func_eval logsumexp2 tiny k ab w in
  Work.CnDn w' !! i = Some CnDn ∧
  Work.fn w' !! i = Some (cadd f CnDn) ∧
  Work.Cnm1 w' !! i = Some Cn ∧
  Work.Dnm1 w' !! i = Some Dn.
Proof.
  intros Hab HC HD Hf HCD. cbv zeta.
  assert (He : elem_at w i = Some (f, Cp, Dp, CD)) by (by apply elem_at_Some).
  pose proof (log_post_at logsumexp2 tiny k ab w i (an, bn) _ Hab He) as H.
  apply elem_at_Some in H as (H1 & H2 & H3 & H4). done.
Qed.

(** The step at [log b = 0], [log a = 0] from [fn = C = 0], [D = -inf],
    with the sample log-sum-exp. *)
Lemma lentz_step_log_witness :
  let tiny := (2 * log_eps64)%float in
  let w := Work.mk 0 [(0, 0)]%float [(0, 0)]%float [of_real neg_infinity]
             [of_real infinity] log_eps64 tiny 0 1 [1] [] in
  let w' := LogMode.post_func_eval logsumexp2_sample tiny 1
              [((0, 0), (0, 0))]%float w in
  let zero := of_real neg_infinity in
  let denom0 :=
    logsumexp2_sample (0, 0)%float (cadd (0, 0)%float (of_real neg_infinity)) in
  let denom := if ceqb denom0 zero then of_real tiny else denom0 in
  let Dn := cneg denom in
  let Cn0 := logsumexp2_sample (0, 0)%float (csub (0, 0)%float (0, 0)%float) in
  let Cn := if ceqb Cn0 zero then of_real tiny else Cn0 in
  let CnDn := cadd Cn Dn in
  Work.CnDn w' !! 0%nat = Some CnDn ∧
  Work.fn w' !! 0%nat = Some (cadd (0, 0)%float CnDn) ∧
  Work.Cnm1 w' !! 0%nat = Some Cn ∧
  Work.Dnm1 w' !! 0%nat = Some Dn.
Proof.
  exact (lentz_step_log logsumexp2_sample (2 * log_eps64)%float 1 0
           [((0, 0), (0, 0))]%float
           (Work.mk 0 [(0, 0)]%float [(0, 0)]%float [of_real neg_infinity]
              [of_real infinity] log_eps64 (2 * log_eps64)%float 0 1 [1] [])
           (0, 0)%float (0, 0)%float (0, 0)%float (of_real neg_infinity)
           (0, 0)%float (of_real infinity)
           eq_refl eq_refl eq_refl eq_refl eq_refl).
Defined.

(** ** What a step and a check leave alone *)

(** X2.  A Lentz step on as many coefficient pairs as there are active
    elements keeps every array of the work object at that length, and
    changes neither the statuses, the counters, the tolerances nor the
    arguments, in both modes. *)
Theorem step_keeps_shape (logsumexp2 : complex → complex → complex)
    (tl tg : float) (k L : nat)
    (abl : list (float * float)) (abg : list (complex * complex))
    (wl : work float) (wg : work complex) :
  length abl = L → work_len L wl →
  length abg = L → work_len L wg →
  let wl' := Linear.post_func_eval tl k abl wl in
  let wg' := LogMode.post_func_eval logsumexp2 tg k abg wg in
  (work_len L wl' ∧ Work.status wl' = Work.status wl ∧
   Work.n wl' = Work.n wl ∧ Work.nit wl' = Work.nit wl ∧
   Work.nfev wl' = Work.nfev wl ∧ Work.eps wl' = Work.eps wl ∧
   Work.tiny wl' = Work.tiny wl ∧ Work.args wl' = Work.args wl) ∧
  (work_len L wg' ∧ Work.status wg' = Work.status wg ∧
   Work.n wg' = Work.n wg ∧ Work.nit wg' = Work.nit wg ∧
   Work.nfev wg' = Work.nfev wg ∧ Work.eps wg' = Work.eps wg ∧
   Work.tiny wg' = Work.tiny wg ∧ Work.args wg' = Work.args wg).
Proof.
  intros Hl Hwl Hg Hwg. cbv zeta. split.
  - split; [by apply linear_post_len|]. by repeat split.
  - split; [by apply log_post_len|]. by repeat split.
Qed.

Lemma step_keeps_shape_witness :
  let wl := Work.mk 0 [3; 2]%float [3; 2]%float [0; 0]%float
              [infinity; infinity] 0x1p-52%float 0x1p-104%float 0 1 [1; 1] [] in
  let wg := Work.mk 0 [(0, 0); (1, 0)]%float [(0, 0); (1, 0)]%float
              [of_real neg_infinity; of_real neg_infinity]
              [of_real infinity; of_real infinity]
              log_eps64 (2 * log_eps64)%float 0 1 [1; 1] [] in
  work_len 2 (Linear.post_func_eval 0x1p-104%float 1 [(1, 7); (1, 0)]%float wl) ∧
  work_len 2 (LogMode.post_func_eval logsumexp2_sample (2 * log_eps64)%float 1
                [((0, 0), (0, 0)); ((0, 0), (0, 0))]%float wg).
Proof.
  pose proof (step_keeps_shape logsumexp2_sample 0x1p-104%float
                (2 * log_eps64)%float 1 2 [(1, 7); (1, 0)]%float
                [((0, 0), (0, 0)); ((0, 0), (0, 0))]%float
                (Work.mk 0 [3; 2]%float [3; 2]%float [0; 0]%float
                   [infinity; infinity] 0x1p-52%float 0x1p-104%float 0 1
                   [1; 1] [])
                (Work.mk 0 [(0, 0); (1, 0)]%float [(0, 0); (1, 0)]%float
                   [of_real neg_infinity; of_real neg_infinity]
                   [of_real infinity; of_real infinity]
                   log_eps64 (2 * log_eps64)%float 0 1 [1; 1] [])
                eq_refl
                (conj eq_refl (conj eq_refl (conj eq_refl (conj eq_refl
                   (conj eq_refl (Forall_nil_2 _))))))
                eq_refl
                (conj eq_refl (conj eq_refl (conj eq_refl (conj eq_refl
                   (conj eq_refl (Forall_nil_2 _))))))) as [[H1 _] [H2 _]].
  by split.
Defined.

(** The flag and the status that the two assignments of a check leave
    at one slot of an element in progress. *)
Lemma check_slot_in_progress (n c : bool) :
  let s := if n then _EVALUEERR else if c then _ECONVERGED else _EINPROGRESS in
  let b := if n then true else if c then true else false in
  (b = true ↔ s = _ECONVERGED ∨ s = _EVALUEERR) ∧
  (b = false ↔ s = _EINPROGRESS).
Proof. destruct n, c; cbn; unfold _ECONVERGED, _EVALUEERR, _EINPROGRESS; naive_solver lia. Qed.

(** X3.  A termination check writes to the status array only: the
    recurrence arrays, the tolerances, the counters and the arguments
    are unchanged.  For an element in progress, the returned flag is
    set exactly when the check gave it a final status (converged or
    value-error), and clear exactly when it is still in progress; no
    other status is ever written. *)
Theorem stop_marks_terminal (logsumexp2 : complex → complex → complex)
    (wl : work float) (wg : work complex) (i : nat)
    (el : elem float) (eg : elem complex) :
  elem_at wl i = Some el → Work.status wl !! i = Some _EINPROGRESS →
  elem_at wg i = Some eg → Work.status wg !! i = Some _EINPROGRESS →
  let cl := Linear.check_termination wl in
  let cg := LogMode.check_termination logsumexp2 wg in
  ((∃ s b, Work.status cl.1 !! i = Some s ∧ cl.2 !! i = Some b ∧
           (b = true ↔ s = _ECONVERGED ∨ s = _EVALUEERR) ∧
           (b = false ↔ s = _EINPROGRESS)) ∧
   Work.fn cl.1 = Work.fn wl ∧ Work.Cnm1 cl.1 = Work.Cnm1 wl ∧
   Work.Dnm1 cl.1 = Work.Dnm1 wl ∧ Work.CnDn cl.1 = Work.CnDn wl ∧
   Work.eps cl.1 = Work.eps wl ∧ Work.tiny cl.1 = Work.tiny wl ∧
   Work.n cl.1 = Work.n wl ∧ Work.nit cl.1 = Work.nit wl ∧
   Work.nfev cl.1 = Work.nfev wl ∧ Work.args cl.1 = Work.args wl) ∧
  ((∃ s b, Work.status cg.1 !! i = Some s ∧ cg.2 !! i = Some b ∧
           (b = true ↔ s = _ECONVERGED ∨ s = _EVALUEERR) ∧
           (b = false ↔ s = _EINPROGRESS)) ∧
   Work.fn cg.1 = Work.fn wg ∧ Work.Cnm1 cg.1 = Work.Cnm1 wg ∧
   Work.Dnm1 cg.1 = Work.Dnm1 wg ∧ Work.CnDn cg.1 = Work.CnDn wg ∧
   Work.eps cg.1 = Work.eps wg ∧ Work.tiny cg.1 = Work.tiny wg ∧
   Work.n cg.1 = Work.n wg ∧ Work.nit cg.1 = Work.nit wg ∧
   Work.nfev cg.1 = Work.nfev wg ∧ Work.args cg.1 = Work.args wg).
Proof.
  intros Hel Hsl Heg Hsg. cbv zeta. split.
  - split; [|by repeat split].
    destruct el as [[[f Cp] Dp] CD].
    apply elem_at_Some in Hel as (Hf & _ & _ & HCD).
    destruct (linear_check_lookup wl i CD f _ HCD Hf Hsl) as [H1 H2].
    cbv zeta in H1, H2. eexists _, _. split; [exact H1|]. split; [exact H2|].
    apply check_slot_in_progress.
  - split; [|by repeat split].
    destruct eg as [[[f Cp] Dp] CD].
    apply elem_at_Some in Heg as (Hf & _ & _ & HCD).
    destruct (log_check_lookup logsumexp2 wg i CD f _ HCD Hf Hsg) as [H1 H2].
    cbv zeta in H1, H2. eexists _, _. split; [exact H1|]. split; [exact H2|].
    apply check_slot_in_progress.
Qed.

Lemma stop_marks_terminal_witness :
  let wl := Work.mk 1 [infinity] [2]%float [1]%float [2]%float 2%float
              0x1p-104%float 1 2 [_EINPROGRESS] [] in
  let wg := Work.mk 1 [(1, 0)]%float [(2, 0)]%float [(0, 0)]%float
              [(0, 0)]%float log_eps64 (2 * log_eps64)%float 1 2
              [_EINPROGRESS] [] in
  Work.fn (Linear.check_termination wl).1 = Work.fn wl ∧
  Work.fn (LogMode.check_termination logsumexp2_sample wg).1 = Work.fn wg.
Proof.
  pose proof (stop_marks_terminal logsumexp2_sample
                (Work.mk 1 [infinity] [2]%float [1]%float [2]%float 2%float
                   0x1p-104%float 1 2 [_EINPROGRESS] [])
                (Work.mk 1 [(1, 0)]%float [(2, 0)]%float [(0, 0)]%float
                   [(0, 0)]%float log_eps64 (2 * log_eps64)%float 1 2
                   [_EINPROGRESS] [])
                0%nat (infinity, 2, 1, 2)%float
                ((1, 0), (2, 0), (0, 0), (0, 0))%float
                eq_refl eq_refl eq_refl eq_refl) as [[_ [H1 _]] [_ [H2 _]]].
  by split.
Defined.

(** Two masked assignments applied twice are the same as applied
    once. *)
Lemma mask_set_twice {A} (m1 m2 : list bool) (u v : A) (x : list A) :
  mask_set m2 v (mask_set m1 u (mask_set m2 v (mask_set m1 u x)))
  = mask_set m2 v (mask_set m1 u x).
Proof.
  unfold mask_set. revert m1 m2.
  induction x as [|y x IH]; intros [|a m1] [|b m2]; cbn; try done.
  f_equal; [by destruct a, b|apply IH].
Qed.

(** X4.  The termination check is idempotent: a second check of the
    state that a check left returns the same statuses and the same
    flags, in both modes and for arrays of any lengths. *)
Theorem check_termination_idempotent
    (logsumexp2 : complex → complex → complex)
    (wl : work float) (wg : work complex) :
  Linear.check_termination (Linear.check_termination wl).1
  = Linear.check_termination wl ∧
  LogMode.check_termination logsumexp2
    (LogMode.check_termination logsumexp2 wg).1
  = LogMode.check_termination logsumexp2 wg.
Proof.
  split.
  - unfold Linear.check_termination, Linear.converged, Linear.not_finite.
    cbn [fst Work.fn Work.CnDn Work.eps Work.status Work.n Work.Cnm1
         Work.Dnm1 Work.tiny Work.nit Work.nfev Work.args].
    by rewrite mask_set_twice.
  - unfold LogMode.check_termination, LogMode.converged, LogMode.not_finite.
    cbn [fst Work.fn Work.CnDn Work.eps Work.status Work.n Work.Cnm1
         Work.Dnm1 Work.tiny Work.nit Work.nfev Work.args].
    by rewrite mask_set_twice.
Qed.

(** ** Values that are not numbers *)

Lemma linear_step_nan (tiny : float) (an bn f Cp Dp CD : float) :
  PrimFloat.is_nan an = true ∨ PrimFloat.is_nan bn = true ∨
  PrimFloat.is_nan f = true ∨ PrimFloat.is_nan Cp = true ∨
  PrimFloat.is_nan Dp = true →
  PrimFloat.is_nan (elem_fn (linear_step tiny (an, bn) (f, Cp, Dp, CD))) = true.
Proof.
  intros H. unfold linear_step, elem_fn. cbn [fst snd].
  destruct H as [H|[H|[H|[H|H]]]].
  - apply is_nan_mul_r, is_nan_mul_r.
    assert (Hd : PrimFloat.is_nan (bn + an * Dp) = true)
      by (by apply is_nan_add_r, is_nan_mul_l).
    rewrite (is_nan_eqb _ 0 Hd). by apply is_nan_div_r.
  - apply is_nan_mul_r, is_nan_mul_r.
    assert (Hd : PrimFloat.is_nan (bn + an * Dp) = true)
      by (by apply is_nan_add_l).
    rewrite (is_nan_eqb _ 0 Hd). by apply is_nan_div_r.
  - by apply is_nan_mul_l.
  - apply is_nan_mul_r, is_nan_mul_l.
    assert (Hc : PrimFloat.is_nan (bn + an / Cp) = true)
      by (by apply is_nan_add_r, is_nan_div_r).
    by rewrite (is_nan_eqb _ 0 Hc).
  - apply is_nan_mul_r, is_nan_mul_r.
    assert (Hd : PrimFloat.is_nan (bn + an * Dp) = true)
      by (by apply is_nan_add_r, is_nan_mul_r).
    rewrite (is_nan_eqb _ 0 Hd). by apply is_nan_div_r.
Qed.

(** X5.  In linear mode a NaN does not go unnoticed: when a coefficient
    of the term ([an] or [bn]) or a value of the recurrence state
    ([fn], [Cnm1] or [Dnm1]) of an element is NaN, the convergent after
    the Lentz step is NaN, and the termination check that follows
    leaves the element with value-error status and flags it to stop,
    whatever [tiny] and [eps] are. *)
Theorem nan_reported (tiny : float) (k i : nat) (ab : list (float * float))
    (w : work float) (an bn f Cp Dp CD : float) (s : Z) :
  ab !! i = Some (an, bn) →
  elem_at w i = Some (f, Cp, Dp, CD) →
  Work.status w !! i = Some s →
  PrimFloat.is_nan an = true ∨ PrimFloat.is_nan bn = true ∨
  PrimFloat.is_nan f = true ∨ PrimFloat.is_nan Cp = true ∨
  PrimFloat.is_nan Dp = true →
  let w1 := Linear.post_func_eval tiny k ab w in
  (∃ f', Work.fn w1 !! i = Some f' ∧ PrimFloat.is_nan f' = true) ∧
  Work.status (Linear.check_termination w1).1 !! i = Some _EVALUEERR ∧
  (Linear.check_termination w1).2 !! i = Some true.
Proof.
  intros Hab He Hs Hnan. cbv zeta.
  pose proof (linear_post_at tiny k ab w i _ _ Hab He) as H1.
  pose proof (linear_step_nan tiny an bn f Cp Dp CD Hnan) as Hf.
  destruct (linear_check_at (Linear.post_func_eval tiny k ab w) i _ s H1 Hs)
    as [H2 H3].
  unfold linear_nf in H2, H3.
  rewrite (is_nan_not_finite _ Hf) in H2, H3. cbn [negb] in H2, H3.
  split; [|done].
  destruct (linear_step tiny (an, bn) (f, Cp, Dp, CD)) as [[[f' C'] D'] CD']
    eqn:E.
  apply elem_at_Some in H1 as (H1 & _). by exists f'.
Qed.

(** A NaN numerator at the first term. *)
Lemma nan_reported_witness :
  let w := Work.mk 0 [3]%float [3]%float [0]%float [infinity]
             0x1p-52%float 0x1p-104%float 0 1 [_EINPROGRESS] [] in
  let w1 := Linear.post_func_eval 0x1p-104%float 1 [(nan, 7)]%float w in
  (∃ f', Work.fn w1 !! 0%nat = Some f' ∧ PrimFloat.is_nan f' = true) ∧
  Work.status (Linear.check_termination w1).1 !! 0%nat = Some _EVALUEERR ∧
  (Linear.check_termination w1).2 !! 0%nat = Some true.
Proof.
  exact (nan_reported 0x1p-104%float 1 0 [(nan, 7)]%float
           (Work.mk 0 [3]%float [3]%float [0]%float [infinity]
              0x1p-52%float 0x1p-104%float 0 1 [_EINPROGRESS] [])
           nan 7 3 3 0 infinity _EINPROGRESS eq_refl eq_refl eq_refl
           (or_introl eq_refl)).
Defined.

(** X6.  In linear mode a correction factor [CnDn] that is infinite or
    NaN never passes the convergence test, whatever [eps] is: the check
    leaves the status of such an element as it was, unless its
    convergent is not finite, which makes it a value-error. *)
Theorem nonfinite_factor_not_converged (w : work float) (i : nat)
    (c f : float) (s : Z) :
  Work.CnDn w !! i = Some c → Work.fn w !! i = Some f →
  Work.status w !! i = Some s →
  PrimFloat.is_finite c = false →
  Linear.converged w !! i = Some false ∧
  Work.status (Linear.check_termination w).1 !! i
  = Some (if PrimFloat.is_finite f then s else _EVALUEERR) ∧
  (Linear.check_termination w).2 !! i = Some (negb (PrimFloat.is_finite f)).
Proof.
  intros Hc Hf Hs Hnf.
  destruct (linear_check_lookup w i c f s Hc Hf Hs) as [H1 H2].
  cbv zeta in H1, H2.
  rewrite (residual_not_finite c (Work.eps w) Hnf) in H1, H2.
  rewrite (linear_converged_lookup w i c Hc),
    (residual_not_finite c (Work.eps w) Hnf).
  split; [done|]. rewrite H1, H2.
  by destruct (PrimFloat.is_finite f).
Qed.

(** A factor of [-inf] with the largest possible [eps]. *)
Lemma nonfinite_factor_not_converged_witness :
  let w := Work.mk 1 [3]%float [2]%float [1]%float [neg_infinity] infinity
             0x1p-104%float 1 2 [_EINPROGRESS] [] in
  Linear.converged w !! 0%nat = Some false ∧
  Work.status (Linear.check_termination w).1 !! 0%nat
  = Some (if PrimFloat.is_finite 3 then _EINPROGRESS else _EVALUEERR) ∧
  (Linear.check_termination w).2 !! 0%nat
  = Some (negb (PrimFloat.is_finite 3)).
Proof.
  exact (nonfinite_factor_not_converged
           (Work.mk 1 [3]%float [2]%float [1]%float [neg_infinity] infinity
              0x1p-104%float 1 2 [_EINPROGRESS] [])
           0%nat neg_infinity 3%float _EINPROGRESS
           eq_refl eq_refl eq_refl eq_refl).
Defined.

Lemma eqb_neg_infinity (x : float) :
  PrimFloat.eqb x neg_infinity = true → PrimFloat.is_finite x = false.
Proof.
  unfold PrimFloat.is_finite, PrimFloat.is_nan, PrimFloat.is_infinity.
  rewrite !FloatAxioms.eqb_spec, !FloatAxioms.abs_spec.
  replace (Prim2SF infinity) with (S754_infinity false) by reflexivity.
  replace (Prim2SF neg_infinity) with (S754_infinity true) by reflexivity.
  by destruct (Prim2SF x) as [[]|[]| |[] m e].
Qed.

(** X7.  In log mode the logarithm of zero is a legal convergent: an
    element whose [fn] has real part [-inf] and imaginary part zero is
    never reported as a value-error, while [-inf] with any other
    imaginary part is, and so is every [fn] with a NaN part. *)
Theorem log_zero_accepted (logsumexp2 : complex → complex → complex)
    (w : work complex) (i : nat) (z f : complex) (s : Z) :
  Work.CnDn w !! i = Some z → Work.fn w !! i = Some f →
  Work.status w !! i = Some s →
  let conv := PrimFloat.ltb (re (logsumexp2 z pi_j)) (Work.eps w) in
  let status' := Work.status (LogMode.check_termination logsumexp2 w).1 !! i in
  (PrimFloat.eqb (re f) neg_infinity = true →
   PrimFloat.eqb (im f) 0 = true →
   status' = Some (if conv then _ECONVERGED else s)) ∧
  (PrimFloat.eqb (re f) neg_infinity = true →
   PrimFloat.eqb (im f) 0 = false →
   status' = Some _EVALUEERR) ∧
  (PrimFloat.is_nan (re f) = true ∨ PrimFloat.is_nan (im f) = true →
   status' = Some _EVALUEERR).
Proof.
  intros Hz Hf Hs. cbv zeta.
  destruct (log_check_lookup logsumexp2 w i z f s Hz Hf Hs) as [H1 _].
  cbv zeta in H1. rewrite H1. unfold cis_finite, ceqb, of_real.
  cbn [re im fst snd]. repeat split.
  - intros Hre Him. rewrite Hre, Him. cbn. by rewrite orb_true_r.
  - intros Hre Him. by rewrite Hre, Him, (eqb_neg_infinity _ Hre).
  - intros [H|H].
    + by rewrite (is_nan_not_finite _ H), (is_nan_eqb _ neg_infinity H).
    + rewrite (is_nan_not_finite _ H), (is_nan_eqb _ 0 H).
      by rewrite !andb_false_r.
Qed.

(** The logarithm of zero, with the sample log-sum-exp. *)
Lemma log_zero_accepted_witness :
  let w := Work.mk 1 [of_real neg_infinity] [(2, 0)]%float [(0, 0)]%float
             [(1, 0)]%float log_eps64 (2 * log_eps64)%float 1 2
             [_EINPROGRESS] [] in
  PrimFloat.eqb (re (of_real neg_infinity)) neg_infinity = true ∧
  PrimFloat.eqb (im (of_real neg_infinity)) 0 = true ∧
  Work.status (LogMode.check_termination logsumexp2_sample w).1 !! 0%nat
  = Some (if PrimFloat.ltb (re (logsumexp2_sample (1, 0)%float pi_j)) log_eps64
          then _ECONVERGED else _EINPROGRESS).
Proof.
  split; [reflexivity|]. split; [reflexivity|].
  exact (proj1 (log_zero_accepted logsumexp2_sample
           (Work.mk 1 [of_real neg_infinity] [(2, 0)]%float [(0, 0)]%float
              [(1, 0)]%float log_eps64 (2 * log_eps64)%float 1 2
              [_EINPROGRESS] [])
           0%nat (1, 0)%float (of_real neg_infinity) _EINPROGRESS
           eq_refl eq_refl eq_refl) eq_refl eq_refl).
Defined.

(** ** The substitution of [tiny] *)




(** ** The set-up *)

Lemma broadcast_to_length {A} (x y : list A) (s : nat) :
  broadcast_to x s = Ok y → length y = s.
Proof.
  unfold broadcast_to. destruct (length x =? s)%nat eqn:E.
  - intros [= <-]. by apply Nat.eqb_eq.
  - destruct x as [|v [|]]; try done. intros [= <-]. apply length_replicate.
Qed.

Lemma mapM_broadcast_to_length {A} (xs ys : list (list A)) (s : nat) :
  mapM (λ arg, broadcast_to arg s) xs = Ok ys →
  length ys = length xs ∧ Forall (λ y, length y = s) ys.
Proof.
  revert ys. induction xs as [|x xs IH]; intros ys H.
  - simpl in H. by injection H as <-.
  - simpl in H. apply bind_Ok in H as (y & Hy & H).
    apply bind_Ok in H as (ys' & Hys & H). injection H as <-.
    destruct (IH ys' Hys) as [Hl HF]. split; [cbn; lia|].
    constructor; [by eapply broadcast_to_length|done].
Qed.

(** X9.  When the set-up succeeds, the work object is well formed: all
    its arrays, and every argument array, have the length of the
    broadcast shape; every element is in progress; the term index and
    the iteration count are 0 and one evaluation is counted; [Cnm1]
    starts as [fn]; and no argument was added or dropped. *)
Theorem setup_well_formed (np_log : float → float)
    (al bl : nat → list (list float) → list float)
    (ag bg : nat → list (list complex) → list complex)
    (argsl : list (list float)) (argsg : list (list complex))
    (epsl tinyl epsg tinyg : option float)
    (wl : work float) (wg : work complex) (sl sg : nat) :
  Linear.setup np_log al bl argsl epsl tinyl = Ok (wl, sl) →
  LogMode.setup np_log ag bg argsg epsg tinyg = Ok (wg, sg) →
  (work_len sl wl ∧ Forall (λ s, s = _EINPROGRESS) (Work.status wl) ∧
   Work.n wl = 0%nat ∧ Work.nit wl = 0%nat ∧ Work.nfev wl = 1%nat ∧
   Work.Cnm1 wl = Work.fn wl ∧ length (Work.args wl) = length argsl) ∧
  (work_len sg wg ∧ Forall (λ s, s = _EINPROGRESS) (Work.status wg) ∧
   Work.n wg = 0%nat ∧ Work.nit wg = 0%nat ∧ Work.nfev wg = 1%nat ∧
   Work.Cnm1 wg = Work.fn wg ∧ length (Work.args wg) = length argsg).
Proof.
  intros Hl Hg. split.
  - apply linear_setup_inv in Hl as (an & bn & args' & _ & Han & Hbn & Ha & ->).
    apply broadcast_to_length in Han, Hbn.
    apply mapM_broadcast_to_length in Ha as [Ha1 Ha2].
    cbv zeta. unfold work_len, full_like, xp_where.
    cbn [Work.fn Work.Cnm1 Work.Dnm1 Work.CnDn Work.status Work.args Work.n
         Work.nit Work.nfev].
    rewrite !length_replicate, !length_zip_with, !length_fmap.
    repeat split; try done; try lia.
    apply Forall_replicate. done.
  - apply log_setup_inv in Hg as (an & bn & args' & _ & Han & Hbn & Ha & ->).
    apply broadcast_to_length in Han, Hbn.
    apply mapM_broadcast_to_length in Ha as [Ha1 Ha2].
    cbv zeta. unfold work_len, full_like, xp_where.
    cbn [Work.fn Work.Cnm1 Work.Dnm1 Work.CnDn Work.status Work.args Work.n
         Work.nit Work.nfev].
    rewrite !length_replicate, !length_zip_with, !length_fmap.
    repeat split; try done; try lia.
    apply Forall_replicate. done.
Qed.

(** The two continued fractions of Machin's formula, and a batch of two
    in log mode. *)
Lemma setup_well_formed_witness :
  ∃ wl wg,
    Linear.setup id machin_a machin_b [[16; 4]; [5; 239]]%float None None
    = Ok (wl, 2%nat) ∧
    LogMode.setup id log_batch_a log_batch_b
      [[(0, 0); (1, 0)]]%float (Some log_eps64) (Some (2 * log_eps64)%float)
    = Ok (wg, 2%nat) ∧
    work_len 2 wl ∧ work_len 2 wg.
Proof.
  eexists _, _. split; [reflexivity|]. split; [reflexivity|].
  pose proof (setup_well_formed id machin_a machin_b
                log_batch_a log_batch_b
                [[16; 4]; [5; 239]]%float [[(0, 0); (1, 0)]]%float
                None None (Some log_eps64) (Some (2 * log_eps64)%float)
                _ _ 2 2 eq_refl eq_refl)
    as [[H1 _] [H2 _]].
  by split.
Defined.

(** ** Stacking the coefficients *)

(** X10.  When the two callables return arrays of the same length,
    the arrays that [post_func_eval] takes out of the stack that [func]
    built are the values of [a] and of [b]. *)
Theorem func_unstack {T} (a b : nat → list (list T) → list T)
    (k : nat) (xs : list (list T)) :
  length (a k xs) = length (b k xs) →
  (func a b k xs).*1 = a k xs ∧ (func a b k xs).*2 = b k xs ∧
  length (func a b k xs) = length (a k xs).
Proof.
  intros H. unfold func. split; [|split].
  - apply fst_zip. lia.
  - apply snd_zip. lia.
  - rewrite length_zip. lia.
Qed.

Lemma func_unstack_witness :
  (func machin_a machin_b 1 [[16; 4]; [5; 239]]%float).*1
  = machin_a 1 [[16; 4]; [5; 239]]%float ∧
  (func machin_a machin_b 1 [[16; 4]; [5; 239]]%float).*2
  = machin_b 1 [[16; 4]; [5; 239]]%float ∧
  length (func machin_a machin_b 1 [[16; 4]; [5; 239]]%float)
  = length (machin_a 1 [[16; 4]; [5; 239]]%float).
Proof.
  exact (func_unstack machin_a machin_b 1 [[16; 4]; [5; 239]]%float eq_refl).
Defined.

(** ** The convergence test and [eps] *)

(** X11.  The convergence test is monotone in [eps]: an element that
    passes it passes it for every larger [eps], the correction factors
    being the same, in both modes. *)
Theorem convergence_monotone (logsumexp2 : complex → complex → complex)
    (wl wl' : work float) (wg wg' : work complex) (i : nat) :
  Work.CnDn wl' = Work.CnDn wl →
  PrimFloat.leb (Work.eps wl) (Work.eps wl') = true →
  Work.CnDn wg' = Work.CnDn wg →
  PrimFloat.leb (Work.eps wg) (Work.eps wg') = true →
  (Linear.converged wl !! i = Some true →
   Linear.converged wl' !! i = Some true) ∧
  (LogMode.converged logsumexp2 wg !! i = Some true →
   LogMode.converged logsumexp2 wg' !! i = Some true).
Proof.
  intros Hcl Hel Hcg Heg. split.
  - intros H. unfold Linear.converged in H.
    rewrite !list_lookup_fmap in H.
    destruct (Work.CnDn wl !! i) as [c|] eqn:Hc; [|done].
    injection H as H.
    rewrite (linear_converged_lookup wl' i c) by (by rewrite Hcl).
    f_equal. by eapply ltb_leb_trans.
  - intros H.
    destruct (Work.CnDn wg !! i) as [z|] eqn:Hz.
    2:{ unfold LogMode.converged, LogMode._logaddexp in H.
        by rewrite !list_lookup_fmap, lookup_zip_with, Hz in H. }
    rewrite (log_converged_lookup logsumexp2 wg i z Hz) in H.
    injection H as H.
    rewrite (log_converged_lookup logsumexp2 wg' i z) by (by rewrite Hcg).
    f_equal. by eapply ltb_leb_trans.
Qed.

Lemma convergence_monotone_witness :
  let wl := Work.mk 1 [3]%float [7]%float [1]%float [1]%float 0x1p-52%float
              0x1p-104%float 1 2 [1] [] in
  let wl' := Work.mk 1 [3]%float [7]%float [1]%float [1]%float 0x1p-23%float
               0x1p-104%float 1 2 [1] [] in
  let wg := Work.mk 1 [(1, 0)]%float [(2, 0)]%float [(0, 0)]%float
              [(0, 0)]%float log_eps64 (2 * log_eps64)%float 1 2 [1] [] in
  let wg' := Work.mk 1 [(1, 0)]%float [(2, 0)]%float [(0, 0)]%float
               [(0, 0)]%float (-1)%float (2 * log_eps64)%float 1 2 [1] [] in
  Linear.converged wl' !! 0%nat = Some true ∧
  LogMode.converged logsumexp2_sample wg' !! 0%nat = Some true.
Proof.
  pose proof (convergence_monotone logsumexp2_sample
                (Work.mk 1 [3]%float [7]%float [1]%float [1]%float
                   0x1p-52%float 0x1p-104%float 1 2 [1] [])
                (Work.mk 1 [3]%float [7]%float [1]%float [1]%float
                   0x1p-23%float 0x1p-104%float 1 2 [1] [])
                (Work.mk 1 [(1, 0)]%float [(2, 0)]%float [(0, 0)]%float
                   [(0, 0)]%float log_eps64 (2 * log_eps64)%float 1 2 [1] [])
                (Work.mk 1 [(1, 0)]%float [(2, 0)]%float [(0, 0)]%float
                   [(0, 0)]%float (-1)%float (2 * log_eps64)%float 1 2 [1] [])
                0%nat eq_refl eq_refl eq_refl eq_refl) as [H1 H2].
  split; [exact (H1 eq_refl)|exact (H2 eq_refl)].
Defined.

(** X12.  In linear mode convergence needs a positive [eps]: the
    residual [|CnDn - 1|] is below [eps] only if 0 is, so with an [eps]
    that is zero, negative or NaN no element ever passes the convergence
    test. *)
Theorem convergence_needs_positive_eps (w : work float) (i : nat) :
  Linear.converged w !! i = Some true →
  PrimFloat.ltb 0 (Work.eps w) = true.
Proof.
  unfold Linear.converged. rewrite !list_lookup_fmap.
  destruct (Work.CnDn w !! i) as [c|]; [|done].
  intros [= H]. by eapply ltb_abs_positive.
Qed.

Lemma convergence_needs_positive_eps_witness :
  PrimFloat.ltb 0 0x1p-52 = true.
Proof.
  exact (convergence_needs_positive_eps
           (Work.mk 1 [3]%float [7]%float [1]%float [1]%float 0x1p-52%float
              0x1p-104%float 1 2 [1] []) 0%nat eq_refl).
Defined.

(** ** More on input validation *)

(** What a successful validation went through. *)
Lemma iv_Ok_inv (a b args : pyval) (tolerances : option (gmap string tolval))
    (maxiter : iterval) (log : pyval) (v : validated) :
  _continued_fraction_iv a b args tolerances maxiter log = Ok v →
  callable a = true ∧ callable b = true ∧ isinstance_bool log = true ∧
  v = (a, b, (if negb (np_iterable args) then PyTuple [args] else args),
       default ∅ tolerances !! "eps", default ∅ tolerances !! "tiny",
       maxiter, log).
Proof.
  unfold _continued_fraction_iv. intros Hv.
  destruct (callable a); [|done]. destruct (callable b); [|done].
  cbn [negb orb] in Hv.
  destruct (np_asarray2 _ _) as [tols|]; [|done]. cbn in Hv.
  destruct (truthy log) as [bl|]; [|done]. cbn in Hv.
  destruct (_ || _ || _ || _); [done|].
  destruct (py_int maxiter) as [k|]; [|done]. cbn in Hv.
  destruct (_ || _); [done|].
  destruct (isinstance_bool log); [|done].
  by injection Hv as <-.
Qed.

(** X13.  Validation is idempotent: what it returns is accepted by a
    second validation and comes back unchanged.  In particular the
    returned [args] is always iterable, the returned [a] and [b] are
    callable and the returned [log] is a boolean. *)
Theorem validation_idempotent (a b args : pyval)
    (tolerances : option (gmap string tolval)) (maxiter : iterval)
    (log : pyval) (a' b' args' : pyval) (eps tiny : option tolval)
    (maxiter' : iterval) (log' : pyval) :
  _continued_fraction_iv a b args tolerances maxiter log
  = Ok (a', b', args', eps, tiny, maxiter', log') →
  np_iterable args' = true ∧ callable a' = true ∧ callable b' = true ∧
  isinstance_bool log' = true ∧
  _continued_fraction_iv a' b' args' tolerances maxiter' log'
  = Ok (a', b', args', eps, tiny, maxiter', log').
Proof.
  intros Hv.
  destruct (iv_Ok_inv _ _ _ _ _ _ _ Hv) as (Ha & Hb & Hlog & E).
  injection E as -> -> -> -> -> -> ->.
  assert (Hit : np_iterable
                  (if negb (np_iterable args) then PyTuple [args] else args)
                = true).
  { by destruct (np_iterable args) eqn:E. }
  do 4 (split; [done|]).
  rewrite <-Hv. unfold _continued_fraction_iv.
  rewrite Hit. cbn [negb].
  by destruct (np_iterable args).
Qed.

Lemma validation_idempotent_witness :
  np_iterable (PyTuple [PyFloat 2]) = true ∧
  _continued_fraction_iv (PyFunction "a") (PyFunction "b")
    (PyTuple [PyFloat 2]) None (MFloat 5) (PyBool true)
  = Ok (PyFunction "a", PyFunction "b", PyTuple [PyFloat 2], None, None,
        MFloat 5, PyBool true).
Proof.
  pose proof (validation_idempotent (PyFunction "a") (PyFunction "b")
                (PyFloat 2) None (MFloat 5) (PyBool true)
                (PyFunction "a") (PyFunction "b") (PyTuple [PyFloat 2])
                None None (MFloat 5) (PyBool true) eq_refl)
    as (H1 & _ & _ & _ & H2).
  by split.
Defined.

(** X14.  Validation reads the keys [eps] and [tiny] of [tolerances]
    and no other: an entry under any other key changes nothing, neither
    the exception nor the values returned, and no [tolerances] at all is
    the same as an empty dictionary. *)
Theorem tolerance_keys_ignored (a b args : pyval) (m : gmap string tolval)
    (key : string) (t : tolval) (maxiter : iterval) (log : pyval) :
  key ≠ "eps" → key ≠ "tiny" →
  _continued_fraction_iv a b args (Some (<[key:=t]> m)) maxiter log
  = _continued_fraction_iv a b args (Some m) maxiter log ∧
  _continued_fraction_iv a b args None maxiter log
  = _continued_fraction_iv a b args (Some ∅) maxiter log.
Proof.
  intros He Ht. split; [|done].
  unfold _continued_fraction_iv. cbv zeta. cbn [default from_option id].
  by rewrite !lookup_insert_ne.
Qed.

(** A misspelt key with a value that would be refused as a tolerance. *)
Lemma tolerance_keys_ignored_witness :
  _continued_fraction_iv (PyFunction "a") (PyFunction "b") (PyTuple [])
    (Some (<["epsilon":=TolFloat (-1)]> ∅)) (MInt 100) (PyBool false)
  = _continued_fraction_iv (PyFunction "a") (PyFunction "b") (PyTuple [])
      (Some ∅) (MInt 100) (PyBool false).
Proof.
  exact (proj1 (tolerance_keys_ignored (PyFunction "a") (PyFunction "b")
                  (PyTuple []) ∅ "epsilon" (TolFloat (-1)) (MInt 100)
                  (PyBool false) ltac:(discriminate) ltac:(discriminate))).
Defined.


(** X16.  Validation never looks into [args]: whether it raises, and
    with which exception, is the same for every [args]. *)
Theorem args_never_rejected (a b args args' : pyval)
    (tolerances : option (gmap string tolval)) (maxiter : iterval)
    (log : pyval) (e : exn) :
  _continued_fraction_iv a b args tolerances maxiter log = Raise e →
  _continued_fraction_iv a b args' tolerances maxiter log = Raise e.
Proof.
  unfold _continued_fraction_iv.
  destruct (negb (callable a) || negb (callable b)); [done|].
  destruct (np_asarray2 _ _) as [tols|]; [|done]. cbn [mbind result_bind].
  destruct (truthy log) as [bl|]; [|done]. cbn [mbind result_bind].
  destruct (_ || _ || _ || _); [done|].
  destruct (py_int maxiter) as [k|]; [|done]. cbn [mbind result_bind].
  destruct (_ || _); [done|].
  by destruct (negb (isinstance_bool log)).
Qed.

Lemma args_never_rejected_witness :
  _continued_fraction_iv (PyFunction "a") (PyFunction "b") (PyFunction "f")
    None (MInt (-1)) (PyBool false) = Raise ValueError.
Proof.
  exact (args_never_rejected (PyFunction "a") (PyFunction "b") (PyTuple [])
           (PyFunction "f") None (MInt (-1)) (PyBool false) ValueError eq_refl).
Defined.

(** X17.  Log mode is the more permissive one: a configuration that
    passes validation with [log = False] passes it with [log = True],
    with the same values returned. *)
Theorem log_more_permissive (a b args : pyval)
    (tolerances : option (gmap string tolval)) (maxiter : iterval)
    (v : validated) :
  _continued_fraction_iv a b args tolerances maxiter (PyBool false) = Ok v →
  _continued_fraction_iv a b args tolerances maxiter (PyBool true)
  = Ok (v.1, PyBool true).
Proof.
  unfold _continued_fraction_iv.
  destruct (negb (callable a) || negb (callable b)); [done|].
  destruct (np_asarray2 _ _) as [tols|]; [|done].
  cbn [mbind result_bind truthy negb].
  destruct (match arr_dtype tols with KComplex => true | _ => false end);
    [done|].
  destruct (existsb le0 (arr_data tols)); [done|]. cbn [orb].
  destruct (_ || _); [done|].
  destruct (py_int maxiter) as [k|]; [|done]. cbn [mbind result_bind].
  destruct (_ || _); [done|].
  cbn [isinstance_bool negb]. by intros [= <-].
Qed.

Lemma log_more_permissive_witness :
  _continued_fraction_iv (PyFunction "a") (PyFunction "b") (PyTuple []) None
    (MInt 100) (PyBool true)
  = Ok (PyFunction "a", PyFunction "b", PyTuple [], None, None, MInt 100,
        PyBool true).
Proof.
  exact (log_more_permissive (PyFunction "a") (PyFunction "b") (PyTuple [])
           None (MInt 100)
           (PyFunction "a", PyFunction "b", PyTuple [], None, None, MInt 100,
            PyBool false) eq_refl).
Defined.

(** The sign of a float with an integer value is the sign of that
    integer. *)
Lemma integer_float_sign (x : float) :
  float_is_integer x = true →
  PrimFloat.ltb x 0 = (float_trunc x <? 0).
Proof.
  unfold float_is_integer, float_trunc.
  rewrite FloatAxioms.ltb_spec.
  replace (Prim2SF 0) with (S754_zero false) by reflexivity.
  destruct (Prim2SF x) as [s|s| |s m e]; try done.
  intros H.
  assert (Hv : 0 < (if 0 <=? e then Z.pos m * 2 ^ e
                    else Z.pos m / 2 ^ (- e))).
  { destruct (0 <=? e) eqn:He.
    - apply Z.leb_le in He. apply Z.mul_pos_pos; [lia|].
      by apply Z.pow_pos_nonneg.
    - cbn [orb] in H. apply Z.eqb_eq in H. apply Z.leb_gt in He.
      assert (Hp : 0 < 2 ^ (- e)) by (apply Z.pow_pos_nonneg; lia).
      pose proof (Z.div_mod (Z.pos m) (2 ^ (- e))) as Hdm.
      rewrite H in Hdm. nia. }
  unfold SFltb, SFcompare. destruct s; symmetry.
  - apply Z.ltb_lt. lia.
  - apply Z.ltb_ge. lia.
Qed.

(** X18.  A float [maxiter] with an integer value is validated as that
    integer is: the one is refused exactly when the other is, with the
    same exception, and both are returned as they were given. *)
Theorem float_maxiter_as_int (a b args : pyval)
    (tolerances : option (gmap string tolval)) (x : float) (log : pyval) :
  float_is_integer x = true →
  let vx := _continued_fraction_iv a b args tolerances (MFloat x) log in
  let vk :=
    _continued_fraction_iv a b args tolerances (MInt (float_trunc x)) log in
  (∀ e, vx = Raise e ↔ vk = Raise e) ∧
  (∀ v, vx = Ok v ↔ vk = Ok (v.1.1, MInt (float_trunc x), v.2) ∧
                    v.1.2 = MFloat x).
Proof.
  intros Hint. cbv zeta.
  assert (Hnan : PrimFloat.is_nan x = false).
  { destruct (PrimFloat.is_nan x) eqn:E; [|done].
    apply is_nan_not_integer in E. congruence. }
  assert (Hinf : PrimFloat.is_infinity x = false).
  { destruct (PrimFloat.is_infinity x) eqn:E; [|done].
    apply is_infinity_not_integer in E. congruence. }
  unfold _continued_fraction_iv.
  destruct (negb (callable a) || negb (callable b)).
  { split; [done|]. intros v. split; [done|]. by intros [? _]. }
  destruct (np_asarray2 _ _) as [tols|ex]; cbn [mbind result_bind].
  2:{ split; [done|]. intros v. split; [done|]. by intros [? _]. }
  destruct (truthy log) as [bl|ex]; cbn [mbind result_bind].
  2:{ split; [done|]. intros v. split; [done|]. by intros [? _]. }
  destruct (_ || _ || _ || _).
  { split; [done|]. intros v. split; [done|]. by intros [? _]. }
  cbn [py_int]. rewrite Hnan, Hinf. cbn [mbind result_bind py_ne py_lt0].
  rewrite Hint, !Z.eqb_refl, (integer_float_sign x Hint). cbn [andb negb orb].
  destruct (float_trunc x <? 0).
  { split; [done|]. intros v. split; [done|]. by intros [? _]. }
  destruct (negb (isinstance_bool log)).
  { split; [done|]. intros v. split; [done|]. by intros [? _]. }
  split; [done|]. intros v. split.
  - by intros [= <-].
  - destruct v as [[v m] l]. cbn. intros [[= <- <-] ->]. done.
Qed.

Lemma float_maxiter_as_int_witness :
  _continued_fraction_iv (PyFunction "a") (PyFunction "b") (PyTuple []) None
    (MFloat (-3)) (PyBool false) = Raise ValueError
  ↔ _continued_fraction_iv (PyFunction "a") (PyFunction "b") (PyTuple []) None
      (MInt (float_trunc (-3))) (PyBool false) = Raise ValueError.
Proof.
  exact (proj1 (float_maxiter_as_int (PyFunction "a") (PyFunction "b")
                  (PyTuple []) None (-3)%float (PyBool false) eq_refl)
           ValueError).
Defined.

(** ** The reported statuses *)

Lemma traj_done_status {T} (pstep : T * T → elem T → elem T)
    (conv nf : elem T → bool) (coef : nat → T * T) (e0 : elem T)
    (k : nat) (s : Z) (f : T) (m : nat) :
  traj pstep conv nf coef e0 k = Done s f m →
  (s = _ECONVERGED ∨ s = _EVALUEERR) ∧ (m ≤ k)%nat.
Proof.
  revert s f m. induction k as [|k IH]; intros s f m; cbn [traj].
  - unfold settle. destruct (nf e0); [|destruct (conv e0)]; intros [= <- <- <-];
      by auto.
  - destruct (traj pstep conv nf coef e0 k) as [e|s' f' m'].
    + unfold settle. destruct (nf _); [|destruct (conv _)];
        intros [= <- <- <-]; by auto.
    + intros [= <- <- <-]. destruct (IH s' f' m' eq_refl) as [H1 H2].
      split; [done|lia].
Qed.

Lemma final_status {T} (pstep : T * T → elem T → elem T)
    (conv nf : elem T → bool) (coef : nat → T * T) (e0 : elem T)
    (maxiter : nat) :
  let o := final pstep conv nf coef e0 maxiter in
  (o.1.1 = _ECONVERGED ∨ o.1.1 = _ECONVERR ∨ o.1.1 = _EVALUEERR) ∧
  (o.2 ≤ maxiter)%nat ∧ (o.1.1 = _ECONVERR → o.2 = maxiter).
Proof.
  cbv zeta. unfold final.
  destruct (traj pstep conv nf coef e0 maxiter) as [e|s f m] eqn:E.
  - cbn. by auto.
  - destruct (traj_done_status _ _ _ _ _ _ _ _ _ E) as [[-> | ->] Hm];
      cbn; (split; [by auto|]); (split; [done|]); by intros [=].
Qed.

(** X19.  With elementwise coefficient callables and argument arrays of
    a common length, the call does not raise, and every element of the
    batch is reported with one of the three documented statuses:
    0 (converged), -2 (iteration limit) or -3 (value error), never the
    in-progress code.  Its iteration count does not exceed [maxiter],
    and equals [maxiter] when the status is -2.  (The iteration driver
    is the one described by the framework; the step and the termination
    check are those of the module.) *)
Theorem result_status_codes
    (np_log : float → float) (logsumexp2 : complex → complex → complex)
    (al bl : nat → list (list float) → list float)
    (ag bg : nat → list (list complex) → list complex)
    (argsl : list (list float)) (argsg : list (list complex))
    (epsl tinyl epsg tinyg : option float) (maxiter : nat)
    (Nl Ng il ig : nat) :
  elementwise (length argsl) al → elementwise (length argsl) bl →
  Forall (λ x, length x = Nl) argsl → (length argsl = 0%nat → Nl = 1%nat) →
  (il < Nl)%nat →
  elementwise (length argsg) ag → elementwise (length argsg) bg →
  Forall (λ x, length x = Ng) argsg → (length argsg = 0%nat → Ng = 1%nat) →
  (ig < Ng)%nat →
  (∃ r s m,
     Linear._continued_fraction np_log al bl argsl epsl tinyl maxiter = Ok r ∧
     Res.status r !! il = Some s ∧ Res.nit r !! il = Some m ∧
     (s = 0 ∨ s = -2 ∨ s = -3) ∧ s ≠ _EINPROGRESS ∧
     (m ≤ maxiter)%nat ∧ (s = -2 → m = maxiter)) ∧
  (∃ r s m,
     LogMode._continued_fraction logsumexp2 np_log ag bg argsg epsg tinyg
       maxiter = Ok r ∧
     Res.status r !! ig = Some s ∧ Res.nit r !! ig = Some m ∧
     (s = 0 ∨ s = -2 ∨ s = -3) ∧ s ≠ _EINPROGRESS ∧
     (m ≤ maxiter)%nat ∧ (s = -2 → m = maxiter)).
Proof.
  intros Hal Hbl Hargsl Hnl Hil Hag Hbg Hargsg Hng Hig. split.
  - destruct (linear_batch_result np_log al bl argsl epsl tinyl maxiter Nl il
                Hal Hbl Hargsl Hnl Hil) as (r & Hr & H1 & _ & H3).
    eexists r, _, _. split; [done|]. split; [exact H1|]. split; [exact H3|].
    match goal with |- context [final ?p ?c ?n ?co ?e ?mx] =>
      destruct (final_status p c n co e mx) as (Hs & Hm & Hx) end.
    unfold _ECONVERGED, _ECONVERR, _EVALUEERR, _EINPROGRESS in *.
    split; [done|]. split; [|by split]. lia.
  - destruct (log_batch_result logsumexp2 np_log ag bg argsg epsg tinyg maxiter
                Ng ig Hag Hbg Hargsg Hng Hig) as (r & Hr & H1 & _ & H3).
    eexists r, _, _. split; [done|]. split; [exact H1|]. split; [exact H3|].
    match goal with |- context [final ?p ?c ?n ?co ?e ?mx] =>
      destruct (final_status p c n co e mx) as (Hs & Hm & Hx) end.
    unfold _ECONVERGED, _ECONVERR, _EVALUEERR, _EINPROGRESS in *.
    split; [done|]. split; [|by split]. lia.
Qed.

(** The two continued fractions of Machin's formula, and a batch of two
    in log mode. *)
Lemma result_status_codes_witness :
  (∃ r s m,
     Linear._continued_fraction id machin_a machin_b
       [[16; 4]; [5; 239]]%float None None 100 = Ok r ∧
     Res.status r !! 1%nat = Some s ∧ Res.nit r !! 1%nat = Some m ∧
     (s = 0 ∨ s = -2 ∨ s = -3) ∧ s ≠ _EINPROGRESS ∧
     (m ≤ 100)%nat ∧ (s = -2 → m = 100%nat)) ∧
  (∃ r s m,
     LogMode._continued_fraction logsumexp2_sample id
       log_batch_a log_batch_b [[(0, 0); (1, 0)]]%float
       (Some log_eps64) (Some (2 * log_eps64)%float) 100 = Ok r ∧
     Res.status r !! 0%nat = Some s ∧ Res.nit r !! 0%nat = Some m ∧
     (s = 0 ∨ s = -2 ∨ s = -3) ∧ s ≠ _EINPROGRESS ∧
     (m ≤ 100)%nat ∧ (s = -2 → m = 100%nat)).
Proof.
  apply (result_status_codes id logsumexp2_sample
           machin_a machin_b log_batch_a log_batch_b
           [[16; 4]; [5; 239]]%float [[(0, 0); (1, 0)]]%float
           None None (Some log_eps64) (Some (2 * log_eps64)%float) 100 2 2 1 0).
  - exact machin_a_elementwise.
  - exact machin_b_elementwise.
  - repeat constructor.
  - discriminate.
  - lia.
  - exact log_batch_a_elementwise.
  - exact log_batch_b_elementwise.
  - repeat constructor.
  - discriminate.
  - lia.
Defined.

(** X20.  With [maxiter = 0] no term beyond the leading one is used: in
    linear mode every element is reported with [f] equal to [b(0)]
    (with [tiny] for an exact zero), zero iterations, and status -2,
    or -3 when that value is not finite; it is never reported as
    converged, whatever [eps] is.  (The iteration driver is the one
    described by the framework.) *)
Theorem zero_iterations (np_log : float → float)
    (a b : nat → list (list float) → list float)
    (args : list (list float)) (eps tiny : option float) (N i : nat) :
  elementwise (length args) a → elementwise (length args) b →
  Forall (λ x, length x = N) args → (length args = 0%nat → N = 1%nat) →
  (i < N)%nat →
  let t := resolve_tiny np_log float64 false tiny in
  let b0 := hd 0%float (b 0%nat (pick i args)) in
  let f0 := if PrimFloat.eqb b0 0 then t else b0 in
  ∃ r, Linear._continued_fraction np_log a b args eps tiny 0 = Ok r ∧
       Res.f r !! i = Some f0 ∧ Res.nit r !! i = Some 0%nat ∧
       Res.status r !! i
       = Some (if PrimFloat.is_finite f0 then _ECONVERR else _EVALUEERR).
Proof.
  intros Ha Hb Hargs Hnil Hi. cbv zeta.
  destruct (linear_batch_result np_log a b args eps tiny 0 N i
              Ha Hb Hargs Hnil Hi) as (r & Hr & H1 & H2 & H3).
  exists r. split; [done|].
  cbv zeta in H1, H2, H3. rewrite H1, H2, H3.
  unfold final. cbn [traj]. unfold settle, linear_nf, linear_conv, linear_e0,
    elem_fn. cbn [fst snd].
  rewrite linear_sentinel.
  by destruct (PrimFloat.is_finite _).
Qed.

Lemma zero_iterations_witness :
  ∃ r, Linear._continued_fraction id machin_a machin_b
         [[16; 4]; [5; 239]]%float None None 0 = Ok r ∧
       Res.f r !! 1%nat = Some 0x1p-104%float ∧ Res.nit r !! 1%nat = Some 0%nat ∧
       Res.status r !! 1%nat = Some _ECONVERR.
Proof.
  exact (zero_iterations id machin_a machin_b [[16; 4]; [5; 239]]%float
           None None 2 1 machin_a_elementwise machin_b_elementwise
           ltac:(repeat constructor) ltac:(discriminate) ltac:(lia)).
Defined.
